(** * Transaction interpreter of the SharedTree edit engine (Transaction.ts)

    A shallow embedding of [Transaction], the interpreter that applies the
    five change kinds (Build, Insert, Detach, Constraint, SetValue) to an
    evolving snapshot while tracking a registry of detached node sequences.

    The class mutates two fields, [_view] and [detached]; here they form the
    record [Transaction] and every method takes the state and returns the new
    one.  A failing [assert] of the source (which throws) is the [Fail]
    branch of [Outcome]. *)

From Stdlib Require Import ZArith.
From stdpp Require Import base gmap list strings.



(* ------------------------------------------------------------------ *)
(** ** Identifiers and persisted types *)

Definition NodeId := nat.
Definition DetachedSequenceId := nat.
Definition TraitLabel := string.
Definition NodeDefinition := string.
Definition Payload := string.
Definition PlaceholderHash := string.

Module EditResult.
Inductive t := Applied | Invalid | Malformed.
#[global] Instance eq_dec : EqDecision t.
Proof. solve_decision. Defined.
End EditResult.

Module EditValidationResult.
Inductive t := Valid | Invalid | Malformed.
#[global] Instance eq_dec : EqDecision t.
Proof. solve_decision. Defined.
End EditValidationResult.

Module ConstraintEffect.
Inductive t := InvalidRetry | ValidRetry.
#[global] Instance eq_dec : EqDecision t.
Proof. solve_decision. Defined.
End ConstraintEffect.

Inductive Side := Before | After.

Record TraitLocation := { parent : NodeId; label : TraitLabel }.

(** [label] of a trait location, for code where a field named [label]
    shadows the projection. *)
Definition traitLabelOf (l : TraitLocation) : TraitLabel := label l.

(** A place in a trait that is robust to nearby edits (PersistedTypes). *)
Record StablePlace := {
  referenceSibling : option NodeId;
  side : Side;
  referenceTrait : option TraitLocation
}.

Record StableRange := { rangeStart : StablePlace; rangeEnd : StablePlace }.

(** A place resolved against a snapshot (the result type of
    [rangeFromStableRange]): only [trait] is read by the interpreter. *)
Record SnapshotPlace := {
  trait : TraitLocation;
  sibling : option NodeId;
  placeSide : Side
}.

Record SnapshotRange := { start : SnapshotPlace; end_ : SnapshotPlace }.

(** [EditNode] is either a reference to a detached sequence or an inline
    node whose traits hold further edit nodes. *)
Inductive EditNode :=
| DetachedRef (id : DetachedSequenceId)
| Inline (node : InlineNode)
with InlineNode :=
| mkInlineNode (identifier : NodeId) (definition : NodeDefinition)
    (traits : list (TraitLabel * list EditNode)) (payload : option Payload).

Definition nodeIdentifier (n : InlineNode) : NodeId :=
  match n with mkInlineNode id _ _ _ => id end.
Definition nodeDefinition (n : InlineNode) : NodeDefinition :=
  match n with mkInlineNode _ d _ _ => d end.
Definition nodeTraits (n : InlineNode) : list (TraitLabel * list EditNode) :=
  match n with mkInlineNode _ _ ts _ => ts end.
Definition nodePayload (n : InlineNode) : option Payload :=
  match n with mkInlineNode _ _ _ p => p end.

(** The change kinds, with the fields of their persisted interfaces.  In
    SetValue, [None] is the explicit [null] payload. *)
Inductive Change :=
| Build (source : list EditNode) (destination : DetachedSequenceId)
| Insert (source : DetachedSequenceId) (destination : StablePlace)
| Detach (source : StableRange) (destination : option DetachedSequenceId)
| Constraint (toConstrain : StableRange) (effect : ConstraintEffect.t)
    (length : option Z) (parentNode : option NodeId)
    (label : option TraitLabel) (identityHash : option PlaceholderHash)
    (contentHash : option PlaceholderHash)
| SetValue (nodeToModify : NodeId) (payload : option Payload).

(* ------------------------------------------------------------------ *)
(** ** Snapshot *)

Record SnapshotNode := {
  identifier : NodeId;
  definition : NodeDefinition;
  traits : list (TraitLabel * list NodeId);
  payload : option Payload
}.

(** [payload] of a snapshot node, for code where a field named [payload]
    shadows the projection. *)
Definition payloadOf (n : SnapshotNode) : option Payload := payload n.

(** Modelled from the spec: [Snapshot] (src/Snapshot.ts, not part of the
    sources).  "An immutable tree: a mapping from NodeId to SnapshotNode plus
    a designated root", with [hasNode], [getSnapshotNode] (precondition
    [hasNode]), [insertSnapshotNodes] ("new Snapshot with the nodes added"),
    [deleteNodes] ("new Snapshot with those nodes (and nothing else)
    removed") and [replaceNodeData] ("new Snapshot with the record for [id]
    replaced"). *)
Record Snapshot := { root : NodeId; nodes : gmap NodeId SnapshotNode }.

Definition hasNode (s : Snapshot) (id : NodeId) : bool :=
  bool_decide (is_Some (nodes s !! id)).

Definition getSnapshotNode (s : Snapshot) (id : NodeId) : option SnapshotNode :=
  nodes s !! id.

Definition insertSnapshotNodes (s : Snapshot) (m : gmap NodeId SnapshotNode)
  : Snapshot :=
  {| root := root s; nodes := m ∪ nodes s |}.

Definition deleteNodes (s : Snapshot) (ids : list NodeId) : Snapshot :=
  {| root := root s; nodes := foldr delete (nodes s) ids |}.

Definition replaceNodeData (s : Snapshot) (id : NodeId) (n : SnapshotNode)
  : Snapshot :=
  {| root := root s; nodes := <[id := n]> (nodes s) |}.

(** The primitives of EditUtilities.ts and [findIndexWithinTrait] of the
    snapshot, which the interpreter only calls and whose results it passes
    on.  The development is generic in them. *)
Class EditUtilities := {
  validateStablePlace : Snapshot -> StablePlace -> EditValidationResult.t;
  validateStableRange : Snapshot -> StableRange -> EditValidationResult.t;
  rangeFromStableRange : Snapshot -> StableRange -> SnapshotRange;
  findIndexWithinTrait : Snapshot -> SnapshotPlace -> Z;
  (** the residual snapshot and the removed node ids *)
  detachRange : Snapshot -> StableRange -> Snapshot * list NodeId;
  insertIntoTrait : Snapshot -> list NodeId -> StablePlace -> Snapshot
}.

(* ------------------------------------------------------------------ *)
(** ** Transaction state *)

Record Transaction := {
  view : Snapshot;
  detached : gmap DetachedSequenceId (list NodeId)
}.

Inductive Outcome (A : Type) :=
| Fail (message : string)
| Done (result : A).
Arguments Fail {A} message.
Arguments Done {A} result.

Definition factory (snapshot : Snapshot) : Transaction :=
  {| view := snapshot; detached := ∅ |}.

Definition validateOnClose (t : Transaction) : EditResult.t :=
  if bool_decide (size (detached t) <> 0) then EditResult.Malformed
  else EditResult.Applied.

(* ------------------------------------------------------------------ *)
(** ** createSnapshotNodesForTree

    The traversal threads the registry (which [getDetachedNodeIds] mutates)
    and the state [C] of the caller's callbacks.  The array [unprocessed] is
    kept with its last element, the top of the stack, at the head: [push] is
    [cons] and [pop] takes the head.  [None] is the [undefined] result. *)

Section CreateSnapshotNodes.
Context {C : Type}.
Variable onCreateNode : NodeId -> SnapshotNode -> C -> bool * C.
Variable onInvalidDetachedId : C -> C.

Definition Registry := gmap DetachedSequenceId (list NodeId).

Definition getDetachedNodeIds (det : Registry) (detachedId : DetachedSequenceId)
    (c : C) : option (list NodeId) * Registry * C :=
  match det !! detachedId with
  | None => (None, det, onInvalidDetachedId c)
  | Some detachedNodeIds => (Some detachedNodeIds, delete detachedId det, c)
  end.

(** First loop: the top-level ids and the initial stack. *)
Fixpoint collectTopLevel (det : Registry) (sequence : list EditNode) (c : C)
    (topLevelIds : list NodeId) (unprocessed : list InlineNode)
    : option (list NodeId * list InlineNode) * Registry * C :=
  match sequence with
  | [] => (Some (topLevelIds, unprocessed), det, c)
  | DetachedRef d :: rest =>
      match getDetachedNodeIds det d c with
      | (None, det', c') => (None, det', c')
      | (Some ids, det', c') =>
          collectTopLevel det' rest c' (topLevelIds ++ ids) unprocessed
      end
  | Inline n :: rest =>
      collectTopLevel det rest c (topLevelIds ++ [nodeIdentifier n])
        (n :: unprocessed)
  end.

(** The children of one trait: [childIds] and the pushes onto the stack. *)
Fixpoint processChildren (det : Registry) (children : list EditNode) (c : C)
    (childIds : list NodeId) (unprocessed : list InlineNode)
    : option (list NodeId * list InlineNode) * Registry * C :=
  match children with
  | [] => (Some (childIds, unprocessed), det, c)
  | DetachedRef d :: rest =>
      match getDetachedNodeIds det d c with
      | (None, det', c') => (None, det', c')
      | (Some ids, det', c') =>
          processChildren det' rest c' (childIds ++ ids) unprocessed
      end
  | Inline child :: rest =>
      processChildren det rest c (childIds ++ [nodeIdentifier child])
        (child :: unprocessed)
  end.

(** The [for (const key in node.traits)] loop building the [traits] map. *)
Fixpoint processTraits (det : Registry)
    (nodeTraits : list (TraitLabel * list EditNode)) (c : C)
    (traitsAcc : list (TraitLabel * list NodeId))
    (unprocessed : list InlineNode)
    : option (list (TraitLabel * list NodeId) * list InlineNode) * Registry * C :=
  match nodeTraits with
  | [] => (Some (traitsAcc, unprocessed), det, c)
  | (key, children) :: rest =>
      match processChildren det children c [] unprocessed with
      | (None, det', c') => (None, det', c')
      | (Some (childIds, unprocessed'), det', c') =>
          processTraits det' rest c' (traitsAcc ++ [(key, childIds)])
            unprocessed'
      end
  end.

(** The [while (unprocessed.length > 0)] loop.  Each iteration pops one
    inline node, and every inline node is pushed once, so [fuel] equal to
    the number of inline nodes of the sequence is never exhausted. *)
Fixpoint processStack (fuel : nat) (det : Registry)
    (unprocessed : list InlineNode) (c : C) : option unit * Registry * C :=
  match unprocessed with
  | [] => (Some tt, det, c)
  | node :: rest =>
      match fuel with
      | O => (None, det, c)
      | S fuel' =>
          match processTraits det (nodeTraits node) c [] rest with
          | (None, det', c') => (None, det', c')
          | (Some (traits, unprocessed'), det', c') =>
              let newNode :=
                {| identifier := nodeIdentifier node;
                   definition := nodeDefinition node;
                   traits := traits;
                   payload := nodePayload node |} in
              match onCreateNode (identifier newNode) newNode c' with
              | (true, c'') => (None, det', c'')
              | (false, c'') => processStack fuel' det' unprocessed' c''
              end
          end
      end
  end.

Fixpoint editNodeCount (e : EditNode) : nat :=
  match e with
  | DetachedRef _ => 0
  | Inline n => inlineNodeCount n
  end
with inlineNodeCount (n : InlineNode) : nat :=
  match n with
  | mkInlineNode _ _ ts _ =>
      S ((fix go (ts : list (TraitLabel * list EditNode)) : nat :=
            match ts with
            | [] => 0
            | (_, cs) :: ts' =>
                (fix goc (cs : list EditNode) : nat :=
                   match cs with
                   | [] => 0
                   | e :: cs' => editNodeCount e + goc cs'
                   end) cs + go ts'
            end) ts)
  end.

Definition sequenceCount (sequence : list EditNode) : nat :=
  sum_list_with editNodeCount sequence.

Definition createSnapshotNodesForTree (det : Registry)
    (sequence : list EditNode) (c : C)
    : option (list NodeId) * Registry * C :=
  match collectTopLevel det sequence c [] [] with
  | (None, det', c') => (None, det', c')
  | (Some (topLevelIds, unprocessed), det', c') =>
      match processStack (sequenceCount sequence) det' unprocessed c' with
      | (None, det'', c'') => (None, det'', c'')
      | (Some _, det'', c'') => (Some topLevelIds, det'', c'')
      end
  end.
End CreateSnapshotNodes.

(* ------------------------------------------------------------------ *)
(** ** The apply methods *)

(** The closure variables of [applyBuild] written by its callbacks. *)
Record BuildLocals := {
  idAlreadyPresent : bool;
  duplicateIdInBuild : bool;
  detachedSequenceNotFound : bool;
  newNodes : gmap NodeId SnapshotNode   (* [map] in the source *)
}.

Definition initialBuildLocals : BuildLocals :=
  {| idAlreadyPresent := false; duplicateIdInBuild := false;
     detachedSequenceNotFound := false; newNodes := ∅ |}.

Section Apply.
Context {EU : EditUtilities}.

Definition buildOnCreateNode (currentView : Snapshot) (id : NodeId)
    (snapshotNode : SnapshotNode) (l : BuildLocals) : bool * BuildLocals :=
  if bool_decide (is_Some (newNodes l !! id)) then
    (true, {| idAlreadyPresent := idAlreadyPresent l;
              duplicateIdInBuild := true;
              detachedSequenceNotFound := detachedSequenceNotFound l;
              newNodes := newNodes l |})
  else if hasNode currentView id then
    (true, {| idAlreadyPresent := true;
              duplicateIdInBuild := duplicateIdInBuild l;
              detachedSequenceNotFound := detachedSequenceNotFound l;
              newNodes := newNodes l |})
  else
    (false, {| idAlreadyPresent := idAlreadyPresent l;
               duplicateIdInBuild := duplicateIdInBuild l;
               detachedSequenceNotFound := detachedSequenceNotFound l;
               newNodes := <[id := snapshotNode]> (newNodes l) |}).

Definition buildOnInvalidDetachedId (l : BuildLocals) : BuildLocals :=
  {| idAlreadyPresent := idAlreadyPresent l;
     duplicateIdInBuild := duplicateIdInBuild l;
     detachedSequenceNotFound := true;
     newNodes := newNodes l |}.

Definition applyBuild (t : Transaction) (source : list EditNode)
    (destination : DetachedSequenceId)
    : Outcome (EditResult.t * Transaction) :=
  if bool_decide (is_Some (detached t !! destination)) then
    Done (EditResult.Malformed, t)
  else
    match createSnapshotNodesForTree
            (buildOnCreateNode (view t)) buildOnInvalidDetachedId
            (detached t) source initialBuildLocals with
    | (newIds, det, l) =>
        let t' := {| view := view t; detached := det |} in
        if detachedSequenceNotFound l || duplicateIdInBuild l then
          Done (EditResult.Malformed, t')
        else if idAlreadyPresent l then
          Done (EditResult.Invalid, t')
        else
          let view' := insertSnapshotNodes (view t) (newNodes l) in
          match newIds with
          | None => Fail "Expected a defined value"   (* assertNotUndefined *)
          | Some ids =>
              Done (EditResult.Applied,
                    {| view := view'; detached := <[destination := ids]> det |})
          end
    end.

Definition applyInsert (t : Transaction) (source : DetachedSequenceId)
    (destination : StablePlace) : Outcome (EditResult.t * Transaction) :=
  match detached t !! source with
  | None => Done (EditResult.Malformed, t)
  | Some ids =>
      match validateStablePlace (view t) destination with
      | EditValidationResult.Valid =>
          Done (EditResult.Applied,
                {| view := insertIntoTrait (view t) ids destination;
                   detached := delete source (detached t) |})
      | EditValidationResult.Invalid => Done (EditResult.Invalid, t)
      | EditValidationResult.Malformed => Done (EditResult.Malformed, t)
      end
  end.

Definition applyDetach (t : Transaction) (source : StableRange)
    (destination : option DetachedSequenceId)
    : Outcome (EditResult.t * Transaction) :=
  match validateStableRange (view t) source with
  | EditValidationResult.Invalid => Done (EditResult.Invalid, t)
  | EditValidationResult.Malformed => Done (EditResult.Malformed, t)
  | EditValidationResult.Valid =>
      let '(modifiedView, ids) := detachRange (view t) source in
      match destination with
      | Some dest =>
          if bool_decide (is_Some (detached t !! dest)) then
            Done (EditResult.Malformed, t)
          else
            Done (EditResult.Applied,
                  {| view := modifiedView;
                     detached := <[dest := ids]> (detached t) |})
      | None =>
          Done (EditResult.Applied,
                {| view := deleteNodes modifiedView ids;
                   detached := detached t |})
      end
  end.

Definition applyConstraint (t : Transaction) (toConstrain : StableRange)
    (effect : ConstraintEffect.t) (length : option Z)
    (parentNode : option NodeId) (label : option TraitLabel)
    (identityHash contentHash : option PlaceholderHash)
    : Outcome (EditResult.t * Transaction) :=
  if bool_decide (is_Some identityHash) then
    Fail "identityHash constraint is not implemented"
  else if bool_decide (is_Some contentHash) then
    Fail "contentHash constraint is not implemented"
  else
    let sourceChangeResult := validateStableRange (view t) toConstrain in
    let onViolation :=
      if decide (effect = ConstraintEffect.ValidRetry)
      then EditResult.Applied else EditResult.Invalid in
    match sourceChangeResult with
    | EditValidationResult.Invalid => Done (onViolation, t)
    | EditValidationResult.Malformed => Done (EditResult.Malformed, t)
    | EditValidationResult.Valid =>
        let r := rangeFromStableRange (view t) toConstrain in
        let startIndex := findIndexWithinTrait (view t) (start r) in
        let endIndex := findIndexWithinTrait (view t) (end_ r) in
        if (match length with
            | Some n => negb (Z.eqb n (endIndex - startIndex))
            | None => false end) then Done (onViolation, t)
        else if (match parentNode with
                 | Some p => negb (Nat.eqb p (parent (trait (end_ r))))
                 | None => false end) then Done (onViolation, t)
        else if (match label with
                 | Some l => negb (String.eqb l (traitLabelOf (trait (end_ r))))
                 | None => false end) then Done (onViolation, t)
        else Done (EditResult.Applied, t)
    end.

Definition applySetValue (t : Transaction) (nodeToModify : NodeId)
    (payload : option Payload) : Outcome (EditResult.t * Transaction) :=
  if negb (hasNode (view t) nodeToModify) then Done (EditResult.Invalid, t)
  else
    match getSnapshotNode (view t) nodeToModify with
    | None => Fail "NodeId not found"
    | Some node =>
        (* [{ ...node }], then [delete newNode.payload] for [null] or
           [newNode.payload = payload] otherwise *)
        let newNode :=
          {| identifier := identifier node; definition := definition node;
             traits := traits node; payload := payload |} in
        Done (EditResult.Applied,
              {| view := replaceNodeData (view t) nodeToModify newNode;
                 detached := detached t |})
    end.

Definition dispatchChange (t : Transaction) (change : Change)
    : Outcome (EditResult.t * Transaction) :=
  match change with
  | Build source destination => applyBuild t source destination
  | Insert source destination => applyInsert t source destination
  | Detach source destination => applyDetach t source destination
  | Constraint toConstrain effect length parentNode label identityHash
      contentHash =>
      applyConstraint t toConstrain effect length parentNode label
        identityHash contentHash
  | SetValue nodeToModify payload => applySetValue t nodeToModify payload
  end.

(** Modelled from the spec: [GenericTransaction] (src/generic, not part of
    the sources), the driver around [dispatchChange] and
    [validateOnClose].  Construction sets [outcome := Applied]; [apply]
    dispatches while the outcome is Applied and "on failure (Invalid or
    Malformed) ... freezes [outcome] with the failure classification",
    after which further calls are no-ops; [close] "if still Open, runs
    [validateOnClose()]" and otherwise returns the frozen outcome. *)
Record GenericTransaction := {
  transaction : Transaction;
  outcome : EditResult.t
}.

Definition newTransaction (initial : Snapshot) : GenericTransaction :=
  {| transaction := factory initial; outcome := EditResult.Applied |}.

(** Modelled from the spec: [GenericTransaction.applyChange]. *)
Definition applyChange (g : GenericTransaction) (change : Change)
    : Outcome GenericTransaction :=
  match outcome g with
  | EditResult.Applied =>
      match dispatchChange (transaction g) change with
      | Fail m => Fail m
      | Done (r, t) => Done {| transaction := t; outcome := r |}
      end
  | _ => Done g
  end.

Fixpoint applyChanges (g : GenericTransaction) (changes : list Change)
    : Outcome GenericTransaction :=
  match changes with
  | [] => Done g
  | c :: rest =>
      match applyChange g c with
      | Fail m => Fail m
      | Done g' => applyChanges g' rest
      end
  end.

(** Modelled from the spec: [GenericTransaction.close]. *)
Definition close (g : GenericTransaction) : EditResult.t :=
  match outcome g with
  | EditResult.Applied => validateOnClose (transaction g)
  | r => r
  end.

(** A run in which no change failed: the changes dispatched in turn, each
    returning Applied; the final state, or [None] when some change returns
    another result or fails an assertion. *)
Fixpoint allApplied (t : Transaction) (changes : list Change)
    : option Transaction :=
  match changes with
  | [] => Some t
  | c :: rest =>
      match dispatchChange t c with
      | Done (EditResult.Applied, t') => allApplied t' rest
      | _ => None
      end
  end.
End Apply.

(* ------------------------------------------------------------------ *)
(** ** A concrete snapshot and primitives

    Used to run the interpreter on concrete inputs.  A place is resolved by
    its reference sibling or trait; a range detaches the sibling of its
    start place. *)

Definition mkNode (id : NodeId) (ts : list (TraitLabel * list NodeId))
  : SnapshotNode :=
  {| identifier := id; definition := "def"; traits := ts; payload := None |}.

Definition exampleSnapshot : Snapshot :=
  {| root := 0;
     nodes := <[0 := mkNode 0 [("L", [1; 2; 3])]]>
              (<[1 := mkNode 1 []]> (<[2 := mkNode 2 []]>
              (<[3 := mkNode 3 []]> ∅))) |}.

Definition examplePlace (p : StablePlace) : SnapshotPlace :=
  {| trait := default {| parent := 0; label := "L" |} (referenceTrait p);
     sibling := referenceSibling p; placeSide := side p |}.

Definition exampleValidatePlace (s : Snapshot) (p : StablePlace)
  : EditValidationResult.t :=
  match referenceSibling p, referenceTrait p with
  | Some id, None =>
      if hasNode s id then EditValidationResult.Valid
      else EditValidationResult.Invalid
  | None, Some _ => EditValidationResult.Valid
  | _, _ => EditValidationResult.Malformed
  end.

Definition exampleUtilities : EditUtilities := {|
  validateStablePlace := exampleValidatePlace;
  validateStableRange s r :=
    match exampleValidatePlace s (rangeStart r),
          exampleValidatePlace s (rangeEnd r) with
    | EditValidationResult.Valid, EditValidationResult.Valid =>
        EditValidationResult.Valid
    | EditValidationResult.Malformed, _ | _, EditValidationResult.Malformed =>
        EditValidationResult.Malformed
    | _, _ => EditValidationResult.Invalid
    end;
  rangeFromStableRange s r :=
    {| start := examplePlace (rangeStart r); end_ := examplePlace (rangeEnd r) |};
  findIndexWithinTrait s p :=
    match sibling p with Some id => Z.of_nat id | None => 0%Z end;
  detachRange s r :=
    (s, match referenceSibling (rangeStart r) with
        | Some id => [id] | None => [] end);
  insertIntoTrait s ids p := s
|}.

Definition exampleLeaf (id : NodeId) : EditNode :=
  Inline (mkInlineNode id "def" [] None).

Definition examplePlaceAt (id : NodeId) : StablePlace :=
  {| referenceSibling := Some id; side := After; referenceTrait := None |}.

Definition exampleRangeAt (id : NodeId) : StableRange :=
  {| rangeStart := {| referenceSibling := Some id; side := Before;
                      referenceTrait := None |};
     rangeEnd := examplePlaceAt id |}.

(* ------------------------------------------------------------------ *)
(** ** Constraint violations *)

Section ConstraintChecks.
Context {EU : EditUtilities}.

(** The result a Constraint violation produces. *)
Definition onViolationOf (effect : ConstraintEffect.t) : EditResult.t :=
  match effect with
  | ConstraintEffect.ValidRetry => EditResult.Applied
  | ConstraintEffect.InvalidRetry => EditResult.Invalid
  end.

(** A failing check of a Constraint on a range that validates. *)
Definition constraintViolated (t : Transaction) (toConstrain : StableRange)
    (length : option Z) (parentNode : option NodeId)
    (label : option TraitLabel) : Prop :=
  let r := rangeFromStableRange (view t) toConstrain in
  let startIndex := findIndexWithinTrait (view t) (start r) in
  let endIndex := findIndexWithinTrait (view t) (end_ r) in
  (exists n, length = Some n /\ n <> (endIndex - startIndex)%Z) \/
  (exists p, parentNode = Some p /\ p <> parent (trait (end_ r))) \/
  (exists l, label = Some l /\ l <> traitLabelOf (trait (end_ r))).
End ConstraintChecks.

(* ------------------------------------------------------------------ *)
(** ** The order of the Build traversal

    The steps of the stack traversal of [createSnapshotNodesForTree],
    described structurally: resolving a detached reference, or creating the
    snapshot node of an inline node.  The top-level references are resolved
    first; then the inline nodes are visited last one first; visiting a node
    resolves the references among its children (in trait and child order),
    creates the node, and then visits its inline children, again the last
    one first. *)
Inductive BuildEvent :=
| Resolve (id : DetachedSequenceId)
| Create (node : InlineNode).

Definition childRefs (children : list EditNode) : list DetachedSequenceId :=
  omap (fun e => match e with DetachedRef d => Some d | Inline _ => None end)
    children.

Definition childInlines (children : list EditNode) : list InlineNode :=
  omap (fun e => match e with DetachedRef _ => None | Inline n => Some n end)
    children.

Definition traitsRefs (ts : list (TraitLabel * list EditNode))
  : list DetachedSequenceId :=
  concat (map (fun tc => childRefs tc.2) ts).

Definition traitsInlines (ts : list (TraitLabel * list EditNode))
  : list InlineNode :=
  concat (map (fun tc => childInlines tc.2) ts).

Fixpoint nodeEvents (n : InlineNode) : list BuildEvent :=
  match n with
  | mkInlineNode _ _ ts _ =>
      map Resolve (traitsRefs ts) ++ Create n ::
      (fix goT (ts : list (TraitLabel * list EditNode)) : list BuildEvent :=
         match ts with
         | [] => []
         | (_, cs) :: ts' =>
             goT ts' ++
             (fix goC (cs : list EditNode) : list BuildEvent :=
                match cs with
                | [] => []
                | DetachedRef _ :: cs' => goC cs'
                | Inline m :: cs' => goC cs' ++ nodeEvents m
                end) cs
         end) ts
  end.

Definition buildEvents (source : list EditNode) : list BuildEvent :=
  map Resolve (childRefs source) ++
  concat (map nodeEvents (rev (childInlines source))).

(** The identifiers of all inline nodes of an edit tree, in preorder. *)
Fixpoint inlineIds (n : InlineNode) : list NodeId :=
  match n with
  | mkInlineNode id _ ts _ =>
      id ::
      (fix goT (ts : list (TraitLabel * list EditNode)) : list NodeId :=
         match ts with
         | [] => []
         | (_, cs) :: ts' =>
             (fix goC (cs : list EditNode) : list NodeId :=
                match cs with
                | [] => []
                | DetachedRef _ :: cs' => goC cs'
                | Inline m :: cs' => inlineIds m ++ goC cs'
                end) cs ++ goT ts'
         end) ts
  end.

Definition sourceInlineIds (source : list EditNode) : list NodeId :=
  concat (map inlineIds (childInlines source)).

(** The result of a Build decided by the first failing step: an unknown
    reference or an identifier created twice is Malformed, an identifier
    already in the view is Invalid. *)
Fixpoint classifyEvents (det : Registry) (seen : list NodeId) (v : Snapshot)
    (evs : list BuildEvent) : EditResult.t :=
  match evs with
  | [] => EditResult.Applied
  | Resolve d :: rest =>
      match det !! d with
      | None => EditResult.Malformed
      | Some _ => classifyEvents (delete d det) seen v rest
      end
  | Create n :: rest =>
      if bool_decide (nodeIdentifier n ∈ seen) then EditResult.Malformed
      else if hasNode v (nodeIdentifier n) then EditResult.Invalid
      else classifyEvents det (nodeIdentifier n :: seen) v rest
  end.

(** Resolving a list of references in turn, removing each from the
    registry. *)
Fixpoint resolveRefs (det : Registry) (ds : list DetachedSequenceId)
  : option Registry :=
  match ds with
  | [] => Some det
  | d :: ds' =>
      match det !! d with
      | None => None
      | Some _ => resolveRefs (delete d det) ds'
      end
  end.

(** The classification [applyBuild] reads from its flags. *)
Definition flagsResult (l : BuildLocals) : EditResult.t :=
  if detachedSequenceNotFound l || duplicateIdInBuild l then EditResult.Malformed
  else if idAlreadyPresent l then EditResult.Invalid
  else EditResult.Applied.

(* ------------------------------------------------------------------ *)
(** ** What a Build consumes and produces *)

Definition eventRefs (evs : list BuildEvent) : list DetachedSequenceId :=
  omap (fun e => match e with Resolve d => Some d | Create _ => None end) evs.

Definition eventNodes (evs : list BuildEvent) : list InlineNode :=
  omap (fun e => match e with Resolve _ => None | Create n => Some n end) evs.

(** The detached references of an edit tree: those among a node's
    children, then those below its inline children. *)
Fixpoint nodeRefs (n : InlineNode) : list DetachedSequenceId :=
  match n with
  | mkInlineNode _ _ ts _ =>
      traitsRefs ts ++
      (fix goT (ts : list (TraitLabel * list EditNode))
         : list DetachedSequenceId :=
         match ts with
         | [] => []
         | (_, cs) :: ts' =>
             (fix goC (cs : list EditNode) : list DetachedSequenceId :=
                match cs with
                | [] => []
                | DetachedRef _ :: cs' => goC cs'
                | Inline m :: cs' => nodeRefs m ++ goC cs'
                end) cs ++ goT ts'
         end) ts
  end.

Definition sourceRefs (source : list EditNode) : list DetachedSequenceId :=
  childRefs source ++ concat (map nodeRefs (childInlines source)).

(** The inline nodes of an edit tree, in preorder. *)
Fixpoint inlineNodes (n : InlineNode) : list InlineNode :=
  match n with
  | mkInlineNode _ _ ts _ =>
      n ::
      (fix goT (ts : list (TraitLabel * list EditNode)) : list InlineNode :=
         match ts with
         | [] => []
         | (_, cs) :: ts' =>
             (fix goC (cs : list EditNode) : list InlineNode :=
                match cs with
                | [] => []
                | DetachedRef _ :: cs' => goC cs'
                | Inline m :: cs' => inlineNodes m ++ goC cs'
                end) cs ++ goT ts'
         end) ts
  end.

Definition sourceInlineNodes (source : list EditNode) : list InlineNode :=
  concat (map inlineNodes (childInlines source)).

(** The node ids a sequence of edit nodes stands for: each inline node's
    identifier, and for each detached reference the sequence the registry
    holds for it. *)
Definition expandedIds (det : Registry) (sequence : list EditNode)
  : list NodeId :=
  concat (map (fun e => match e with
                        | DetachedRef d => default [] (det !! d)
                        | Inline n => [nodeIdentifier n]
                        end) sequence).

Definition expandedTraits (det : Registry)
    (ts : list (TraitLabel * list EditNode)) : list (TraitLabel * list NodeId) :=
  map (fun tc => (tc.1, expandedIds det tc.2)) ts.

(** The snapshot record of an inline node, its children expanded against
    the registry [det]. *)
Definition snapshotNodeOf (det : Registry) (n : InlineNode) : SnapshotNode :=
  {| identifier := nodeIdentifier n; definition := nodeDefinition n;
     traits := expandedTraits det (nodeTraits n); payload := nodePayload n |}.

(* ------------------------------------------------------------------ *)
(** ** Concrete states *)

(** The example snapshot with node 4 removed from its trait and held
    unparented, as a Detach with destination 0 leaves it. *)
Definition exampleDetachedState : Transaction :=
  {| view := {| root := 0; nodes := <[4 := mkNode 4 []]> (nodes exampleSnapshot) |};
     detached := <[0 := [4]]> ∅ |}.

Definition exampleBuilt : GenericTransaction :=
  {| transaction :=
       {| view := insertSnapshotNodes exampleSnapshot
                    {[5 := {| identifier := 5; definition := "def";
                              traits := []; payload := None |}]};
          detached := {[7 := [5]]} |};
     outcome := EditResult.Applied |}.

(** A Build source with a top-level leaf, and an inline node whose trait
    holds the detached sequence 0 and a leaf. *)
Definition exampleTree : list EditNode :=
  [exampleLeaf 12;
   Inline (mkInlineNode 10 "def" [("c", [DetachedRef 0; exampleLeaf 11])]
             (Some "v"))].

(** The state after one change, or the given state when the change fails
    an assertion. *)
Definition stepState {EU : EditUtilities} (t : Transaction) (change : Change)
  : Transaction :=
  match dispatchChange t change with
  | Done (_, t') => t'
  | Fail _ => t
  end.

(* ================================================================== *)
(** * Properties of the interpreter *)

Section Properties.
Context {EU : EditUtilities}.

(** C4: an Insert whose source is not in the registry is Malformed; a
    destination that does not validate returns its classification;
    otherwise the source entry is removed, the view becomes
    [insertIntoTrait] of the stored ids at the destination, and the result
    is Applied. *)
Theorem insert_classification (t : Transaction)
    (source : DetachedSequenceId) (destination : StablePlace) :
  (detached t !! source = None ->
     dispatchChange t (Insert source destination)
     = Done (EditResult.Malformed, t)) /\
  (forall ids, detached t !! source = Some ids ->
     (validateStablePlace (view t) destination = EditValidationResult.Invalid ->
        dispatchChange t (Insert source destination)
        = Done (EditResult.Invalid, t)) /\
     (validateStablePlace (view t) destination = EditValidationResult.Malformed ->
        dispatchChange t (Insert source destination)
        = Done (EditResult.Malformed, t)) /\
     (validateStablePlace (view t) destination = EditValidationResult.Valid ->
        dispatchChange t (Insert source destination)
        = Done (EditResult.Applied,
                {| view := insertIntoTrait (view t) ids destination;
                   detached := delete source (detached t) |}))).
Proof.
  simpl; unfold applyInsert. split.
  - intros Hnone. by rewrite Hnone.
  - intros ids Hids. rewrite Hids.
    repeat split; intros Hv; by rewrite Hv.
Qed.

(** C5: a Detach whose range validates as Valid is Malformed when its
    destination is already in the registry; with a fresh destination the
    removed ids are stored under it and the view is the residual snapshot
    of [detachRange], with no node deleted from it; without destination
    the removed nodes are deleted from the view. *)
Theorem detach_valid_range (t : Transaction) (source : StableRange) :
  validateStableRange (view t) source = EditValidationResult.Valid ->
  let residual := fst (detachRange (view t) source) in
  let ids := snd (detachRange (view t) source) in
  (forall dest, is_Some (detached t !! dest) ->
     dispatchChange t (Detach source (Some dest))
     = Done (EditResult.Malformed, t)) /\
  (forall dest, detached t !! dest = None ->
     dispatchChange t (Detach source (Some dest))
     = Done (EditResult.Applied,
             {| view := residual;
                detached := <[dest := ids]> (detached t) |})) /\
  (exists t', dispatchChange t (Detach source None)
              = Done (EditResult.Applied, t') /\
     detached t' = detached t /\
     root (view t') = root residual /\
     (forall id, id ∈ ids -> hasNode (view t') id = false) /\
     (forall id, id ∉ ids -> getSnapshotNode (view t') id
                             = getSnapshotNode residual id)).
Proof.
  intros Hvalid residual ids. simpl; unfold applyDetach.
  rewrite Hvalid. subst residual ids.
  destruct (detachRange (view t) source) as [res ids] eqn:Hdr; simpl.
  split; [|split].
  - intros dest Hdest. by rewrite bool_decide_eq_true_2.
  - intros dest Hdest. rewrite bool_decide_eq_false_2; [done|].
    rewrite Hdest. apply is_Some_None.
  - eexists. split; [reflexivity|]. simpl. repeat split.
    + intros id Hin. unfold hasNode; simpl.
      apply bool_decide_eq_false_2. rewrite lookup_foldr_delete by done.
      apply is_Some_None.
    + intros id Hnin. unfold getSnapshotNode; simpl.
      by apply lookup_foldr_delete_not_elem_of.
Qed.

(** C6: a Constraint never changes the view (nor the registry), whatever
    result it returns. *)
Theorem constraint_preserves_view (t t' : Transaction) (r : EditResult.t)
    toConstrain effect length parentNode label identityHash contentHash :
  dispatchChange t (Constraint toConstrain effect length parentNode label
                      identityHash contentHash) = Done (r, t') ->
  view t' = view t /\ t' = t.
Proof.
  simpl; unfold applyConstraint.
  repeat (case_match; try discriminate); intros Heq;
    injection Heq as <- <-; auto.
Qed.
(** C7: with the hash fields absent, a Constraint whose range validates as
    Malformed is Malformed whatever its effect; a range validating as
    Invalid, or any failing check among length, parentNode and label,
    gives Applied under ValidRetry and Invalid under InvalidRetry; with no
    violation the result is Applied. *)
Theorem constraint_classification (t : Transaction)
    toConstrain effect length parentNode label :
  let c := Constraint toConstrain effect length parentNode label None None in
  (validateStableRange (view t) toConstrain = EditValidationResult.Malformed ->
     dispatchChange t c = Done (EditResult.Malformed, t)) /\
  (validateStableRange (view t) toConstrain = EditValidationResult.Invalid ->
     dispatchChange t c = Done (onViolationOf effect, t)) /\
  (validateStableRange (view t) toConstrain = EditValidationResult.Valid ->
     constraintViolated t toConstrain length parentNode label ->
     dispatchChange t c = Done (onViolationOf effect, t)) /\
  (validateStableRange (view t) toConstrain = EditValidationResult.Valid ->
     ~ constraintViolated t toConstrain length parentNode label ->
     dispatchChange t c = Done (EditResult.Applied, t)).
Proof.
  intros c; subst c; simpl; unfold applyConstraint.
  rewrite !bool_decide_eq_false_2 by apply is_Some_None.
  assert (Heff : (if decide (effect = ConstraintEffect.ValidRetry)
                  then EditResult.Applied else EditResult.Invalid)
                 = onViolationOf effect) by (destruct effect; done).
  rewrite Heff. unfold constraintViolated.
  set (r := rangeFromStableRange (view t) toConstrain).
  set (d := (findIndexWithinTrait (view t) (end_ r)
             - findIndexWithinTrait (view t) (start r))%Z).
  repeat split; intros Hv; rewrite Hv; try done.
  - intros [(n & -> & Hn) | [(p & -> & Hp) | (l & -> & Hl)]].
    + apply Z.eqb_neq in Hn. by rewrite Hn.
    + apply Nat.eqb_neq in Hp. rewrite Hp.
      by destruct length as [n|]; [destruct (Z.eqb n d)|].
    + apply String.eqb_neq in Hl. rewrite Hl.
      destruct length as [n|]; [destruct (Z.eqb n d)|];
        destruct parentNode as [p|]; try destruct (Nat.eqb p _); done.
  - intros Hnot.
    destruct length as [n|]; [destruct (Z.eqb n d) eqn:En|].
    all: try (exfalso; apply Hnot; left; exists n; split; [done|];
              apply Z.eqb_neq; done).
    all: destruct parentNode as [p|];
         [destruct (Nat.eqb p (parent (trait (end_ r)))) eqn:Ep|].
    all: try (exfalso; apply Hnot; right; left; exists p; split; [done|];
              apply Nat.eqb_neq; done).
    all: destruct label as [l|];
         [destruct (String.eqb l (traitLabelOf (trait (end_ r)))) eqn:El|].
    all: try (exfalso; apply Hnot; right; right; exists l; split; [done|];
              apply String.eqb_neq; done).
    all: done.
Qed.

(** C9: a Constraint with an identityHash or a contentHash fails an
    assertion instead of returning a result; without both it returns a
    result (and the transaction state it was given). *)
Theorem constraint_hash_assertions (t : Transaction)
    toConstrain effect length parentNode label identityHash contentHash :
  let c := Constraint toConstrain effect length parentNode label
             identityHash contentHash in
  ((is_Some identityHash \/ is_Some contentHash) ->
     exists message, dispatchChange t c = Fail message) /\
  (identityHash = None -> contentHash = None ->
     exists r, dispatchChange t c = Done (r, t)).
Proof.
  intros c; subst c; simpl; unfold applyConstraint. split.
  - intros [Hi | Hc].
    + rewrite bool_decide_eq_true_2 by done. by eexists.
    + case_bool_decide; [by eexists|].
      rewrite bool_decide_eq_true_2 by done. by eexists.
  - intros -> ->. rewrite !bool_decide_eq_false_2 by apply is_Some_None.
    repeat case_match; by eexists.
Qed.

(** C8: a SetValue on a node absent from the view is Invalid and changes
    nothing; otherwise it is Applied and replaces only that node's record,
    keeping its identifier, definition and traits and setting its payload
    to the given one, the [null] payload ([None]) removing the field. *)
Theorem set_value_semantics (t : Transaction) (nodeToModify : NodeId)
    (payload : option Payload) :
  (hasNode (view t) nodeToModify = false ->
     dispatchChange t (SetValue nodeToModify payload)
     = Done (EditResult.Invalid, t)) /\
  (forall node, getSnapshotNode (view t) nodeToModify = Some node ->
     exists t', dispatchChange t (SetValue nodeToModify payload)
                = Done (EditResult.Applied, t') /\
       detached t' = detached t /\
       root (view t') = root (view t) /\
       (forall id, id <> nodeToModify ->
          getSnapshotNode (view t') id = getSnapshotNode (view t) id) /\
       exists node', getSnapshotNode (view t') nodeToModify = Some node' /\
         identifier node' = identifier node /\
         definition node' = definition node /\
         traits node' = traits node /\
         (payload = None -> payloadOf node' = None) /\
         (forall v, payload = Some v -> payloadOf node' = Some v)).
Proof.
  simpl; unfold applySetValue. split.
  - intros Hn. by rewrite Hn.
  - intros node Hnode.
    assert (Hhas : hasNode (view t) nodeToModify = true).
    { unfold hasNode. apply bool_decide_eq_true_2.
      unfold getSnapshotNode in Hnode. by rewrite Hnode. }
    rewrite Hhas, Hnode. simpl. eexists. split; [reflexivity|].
    unfold getSnapshotNode; simpl. repeat split.
    + intros id Hne. by rewrite lookup_insert_ne by congruence.
    + eexists. rewrite lookup_insert_eq. split; [reflexivity|].
      unfold payloadOf; simpl. repeat split; intros; by subst.
Qed.

(** C10: a Build of the empty sequence to a fresh destination is Applied,
    leaves the view unchanged and stores the empty sequence under the
    destination; the transaction then fails [validateOnClose] (Malformed)
    unless that entry is consumed. *)
Theorem build_empty_source (t : Transaction)
    (destination : DetachedSequenceId) :
  detached t !! destination = None ->
  exists t', dispatchChange t (Build [] destination)
             = Done (EditResult.Applied, t') /\
    view t' = view t /\
    detached t' = <[destination := []]> (detached t) /\
    validateOnClose t' = EditResult.Malformed.
Proof.
  intros Hfresh. simpl; unfold applyBuild.
  rewrite bool_decide_eq_false_2 by (rewrite Hfresh; apply is_Some_None).
  simpl. eexists. split; [reflexivity|]. simpl. repeat split.
  - unfold insertSnapshotNodes. destruct (view t) as [r ns]; simpl.
    by rewrite (left_id ∅ (∪) ns).
  - unfold validateOnClose; simpl.
    rewrite bool_decide_eq_true_2; [done|].
    apply map_size_non_empty_iff. apply insert_non_empty.
Qed.
End Properties.

(** ** The traversal only removes entries from the registry *)

Section TraversalRegistry.
Context {C : Type}.
Variable onCreateNode : NodeId -> SnapshotNode -> C -> bool * C.
Variable onInvalidDetachedId : C -> C.

Lemma getDetachedNodeIds_subseteq det d c o det' c' :
  getDetachedNodeIds onInvalidDetachedId det d c = (o, det', c') ->
  det' ⊆ det.
Proof.
  unfold getDetachedNodeIds. case_match; intros Heq; injection Heq as _ <- _.
  - apply delete_subseteq.
  - reflexivity.
Qed.

Lemma collectTopLevel_subseteq sequence : forall det c ids un o det' c',
  collectTopLevel onInvalidDetachedId det sequence c ids un = (o, det', c') ->
  det' ⊆ det.
Proof.
  induction sequence as [|[d|n] rest IH]; simpl; intros det c ids un o det' c' Heq.
  - by injection Heq as _ <- _.
  - destruct (getDetachedNodeIds _ det d c) as [[[x|] d1] c1] eqn:Hg.
    + transitivity d1; [eapply IH, Heq|eapply getDetachedNodeIds_subseteq, Hg].
    + injection Heq as _ <- _. eapply getDetachedNodeIds_subseteq, Hg.
  - eapply IH, Heq.
Qed.

Lemma processChildren_subseteq children : forall det c ids un o det' c',
  processChildren onInvalidDetachedId det children c ids un = (o, det', c') ->
  det' ⊆ det.
Proof.
  induction children as [|[d|n] rest IH]; simpl; intros det c ids un o det' c' Heq.
  - by injection Heq as _ <- _.
  - destruct (getDetachedNodeIds _ det d c) as [[[x|] d1] c1] eqn:Hg.
    + transitivity d1; [eapply IH, Heq|eapply getDetachedNodeIds_subseteq, Hg].
    + injection Heq as _ <- _. eapply getDetachedNodeIds_subseteq, Hg.
  - eapply IH, Heq.
Qed.

Lemma processTraits_subseteq ts : forall det c acc un o det' c',
  processTraits onInvalidDetachedId det ts c acc un = (o, det', c') ->
  det' ⊆ det.
Proof.
  induction ts as [|[key children] rest IH]; simpl; intros det c acc un o det' c' Heq.
  - by injection Heq as _ <- _.
  - destruct (processChildren _ det children c [] un) as [[[[ids un1]|] d1] c1] eqn:Hp.
    + transitivity d1; [eapply IH, Heq|eapply processChildren_subseteq, Hp].
    + injection Heq as _ <- _. eapply processChildren_subseteq, Hp.
Qed.

Lemma processStack_subseteq fuel : forall det un c o det' c',
  processStack onCreateNode onInvalidDetachedId fuel det un c = (o, det', c') ->
  det' ⊆ det.
Proof.
  induction fuel as [|fuel IH]; simpl; intros det un c o det' c' Heq;
    destruct un as [|node rest]; try (injection Heq as _ <- _; reflexivity).
  destruct (processTraits _ det (nodeTraits node) c [] rest)
    as [[[[ts un1]|] d1] c1] eqn:Hp.
  - assert (d1 ⊆ det) by (eapply processTraits_subseteq, Hp).
    destruct (onCreateNode _ _ c1) as [[|] c2].
    + injection Heq as _ <- _. done.
    + transitivity d1; [eapply IH, Heq|done].
  - injection Heq as _ <- _. eapply processTraits_subseteq, Hp.
Qed.

Lemma createSnapshotNodesForTree_subseteq det sequence c o det' c' :
  createSnapshotNodesForTree onCreateNode onInvalidDetachedId det sequence c
  = (o, det', c') ->
  det' ⊆ det.
Proof.
  unfold createSnapshotNodesForTree.
  destruct (collectTopLevel _ det sequence c [] []) as [[[[ids un]|] d1] c1] eqn:Hc.
  - assert (d1 ⊆ det) by (eapply collectTopLevel_subseteq, Hc).
    destruct (processStack _ _ _ d1 un c1) as [[[[]|] d2] c2] eqn:Hs; intros Heq;
      injection Heq as _ <- _;
      (transitivity d1; [eapply processStack_subseteq, Hs|done]).
  - intros Heq. injection Heq as _ <- _. eapply collectTopLevel_subseteq, Hc.
Qed.
End TraversalRegistry.


(* ================================================================== *)
(** * Runs on concrete inputs *)

(** C1: a Build leaves a sequence in the registry, then a SetValue on an
    absent node fails with Invalid; closing gives Invalid, not Malformed,
    although the registry is non-empty. *)
Lemma close_malformation_counterexample :
  match applyChanges (EU := exampleUtilities) (newTransaction exampleSnapshot)
          [Build [exampleLeaf 5] 7; SetValue 9 None] with
  | Done g => detached (transaction g) <> ∅ /\ close g = EditResult.Invalid
  | Fail _ => False
  end.
Proof. vm_compute. split; [discriminate | reflexivity]. Qed.

(** C2: node 1 is in the view and appears twice in the Build: both
    conditions hold, and the result is Invalid. *)
Lemma build_priority_counterexample :
  hasNode exampleSnapshot 1 = true /\
  dispatchChange (EU := exampleUtilities) (factory exampleSnapshot)
    (Build [exampleLeaf 1; exampleLeaf 1] 7)
  = Done (EditResult.Invalid, factory exampleSnapshot).
Proof. split; vm_compute; reflexivity. Qed.

(** C3: a Build referencing detached sequence 0 and then failing on a
    duplicate identifier is Malformed, and sequence 0 is gone from the
    registry. *)
Lemma failed_build_consumes_counterexample :
  dispatchChange (EU := exampleUtilities) exampleDetachedState
    (Build [DetachedRef 0; exampleLeaf 5; exampleLeaf 5] 7)
  = Done (EditResult.Malformed,
          {| view := view exampleDetachedState; detached := ∅ |}) /\
  detached exampleDetachedState !! 0 = Some [4].
Proof. split; vm_compute; reflexivity. Qed.

(** ** Witnesses *)

Lemma insert_classification_witness :
  detached exampleDetachedState !! 0 = Some [4] /\
  dispatchChange (EU := exampleUtilities) exampleDetachedState
    (Insert 0 (examplePlaceAt 1))
  = Done (EditResult.Applied,
          {| view := view exampleDetachedState;
             detached := delete 0 (detached exampleDetachedState) |}).
Proof.
  split; [reflexivity|].
  refine (proj2 (proj2 (proj2 (insert_classification (EU := exampleUtilities)
            exampleDetachedState 0 (examplePlaceAt 1)) [4] eq_refl)) _).
  vm_compute; reflexivity.
Defined.

Lemma detach_valid_range_witness :
  exists t', dispatchChange (EU := exampleUtilities) (factory exampleSnapshot)
               (Detach (exampleRangeAt 2) None) = Done (EditResult.Applied, t') /\
             hasNode (view t') 2 = false.
Proof.
  destruct (proj2 (proj2 (detach_valid_range (EU := exampleUtilities)
              (factory exampleSnapshot) (exampleRangeAt 2)
              ltac:(vm_compute; reflexivity))))
    as (t' & Hrun & _ & _ & Hdel & _).
  exists t'. split; [exact Hrun|]. apply Hdel. vm_compute. left.
Defined.

Lemma constraint_preserves_view_witness :
  view (factory exampleSnapshot) = view (factory exampleSnapshot).
Proof.
  exact (proj1 (constraint_preserves_view (EU := exampleUtilities)
           (factory exampleSnapshot) (factory exampleSnapshot)
           EditResult.Applied (exampleRangeAt 2) ConstraintEffect.ValidRetry
           (Some 5%Z) None None None None ltac:(vm_compute; reflexivity))).
Defined.

Lemma constraint_classification_witness :
  dispatchChange (EU := exampleUtilities) (factory exampleSnapshot)
    (Constraint (exampleRangeAt 2) ConstraintEffect.InvalidRetry (Some 5%Z)
       None None None None)
  = Done (EditResult.Invalid, factory exampleSnapshot).
Proof.
  refine (proj1 (proj2 (proj2 (constraint_classification (EU := exampleUtilities)
            (factory exampleSnapshot) (exampleRangeAt 2)
            ConstraintEffect.InvalidRetry (Some 5%Z) None None))) _ _).
  - vm_compute; reflexivity.
  - left. exists 5%Z. split; [reflexivity|]. vm_compute. discriminate.
Defined.

Lemma constraint_hash_assertions_witness :
  exists message, dispatchChange (EU := exampleUtilities) (factory exampleSnapshot)
    (Constraint (exampleRangeAt 2) ConstraintEffect.ValidRetry None None None
       (Some "hash") None) = Fail message.
Proof.
  refine (proj1 (constraint_hash_assertions (EU := exampleUtilities)
            (factory exampleSnapshot) (exampleRangeAt 2)
            ConstraintEffect.ValidRetry None None None (Some "hash") None) _).
  left. eexists; reflexivity.
Defined.

Lemma set_value_semantics_witness :
  exists t', dispatchChange (EU := exampleUtilities) (factory exampleSnapshot)
               (SetValue 1 (Some "v")) = Done (EditResult.Applied, t') /\
             option_map payloadOf (getSnapshotNode (view t') 1) = Some (Some "v").
Proof.
  destruct (proj2 (set_value_semantics (EU := exampleUtilities)
              (factory exampleSnapshot) 1 (Some "v")) (mkNode 1 [])
              ltac:(vm_compute; reflexivity))
    as (t' & Hrun & _ & _ & _ & node' & Hnode & _ & _ & _ & _ & Hp).
  exists t'. split; [exact Hrun|]. rewrite Hnode. simpl.
  rewrite (Hp "v" eq_refl). reflexivity.
Defined.

Lemma build_empty_source_witness :
  exists t', dispatchChange (EU := exampleUtilities) (factory exampleSnapshot)
               (Build [] 7) = Done (EditResult.Applied, t') /\
             validateOnClose t' = EditResult.Malformed.
Proof.
  destruct (build_empty_source (EU := exampleUtilities) (factory exampleSnapshot)
              7 ltac:(vm_compute; reflexivity)) as (t' & Hrun & _ & _ & Hc).
  exists t'. split; assumption.
Defined.

(** ** The Build traversal follows [buildEvents] *)

Section BuildTraversal.

Lemma nodeEvents_unfold id d ts p :
  nodeEvents (mkInlineNode id d ts p) =
  map Resolve (traitsRefs ts) ++ Create (mkInlineNode id d ts p) ::
  concat (map nodeEvents (rev (traitsInlines ts))).
Proof.
  cbn [nodeEvents]. f_equal. f_equal.
  unfold traitsInlines. induction ts as [|[k cs] ts IH]; [done|].
  cbn [map concat]. rewrite rev_app_distr, map_app, concat_app, <- IH.
  f_equal. clear IH. unfold childInlines. simpl.
  induction cs as [|[d'|m] cs IHc]; simpl; [done|done|].
  rewrite IHc, map_app, concat_app. simpl. by rewrite app_nil_r.
Qed.

Lemma inlineNodeCount_unfold id d ts p :
  inlineNodeCount (mkInlineNode id d ts p)
  = S (sum_list_with inlineNodeCount (traitsInlines ts)).
Proof.
  cbn [inlineNodeCount]. f_equal.
  unfold traitsInlines. induction ts as [|[k cs] ts IH]; [done|].
  cbn [map concat]. rewrite sum_list_with_app, <- IH. f_equal.
  clear IH. unfold childInlines. simpl.
  induction cs as [|[d'|m] cs IHc]; simpl; [done|done|].
  by rewrite IHc.
Qed.

Lemma sequenceCount_inlines (source : list EditNode) :
  sequenceCount source = sum_list_with inlineNodeCount (childInlines source).
Proof.
  unfold sequenceCount, childInlines.
  induction source as [|[d|n] rest IH]; simpl; [done|done|]. by rewrite IH.
Qed.

Lemma sum_list_with_rev {A} (f : A -> nat) (l : list A) :
  sum_list_with f (rev l) = sum_list_with f l.
Proof.
  induction l as [|x l IH]; simpl; [done|].
  rewrite sum_list_with_app, IH. simpl. lia.
Qed.

Lemma resolveRefs_app det xs ys :
  resolveRefs det (xs ++ ys) =
  match resolveRefs det xs with
  | None => None
  | Some det' => resolveRefs det' ys
  end.
Proof.
  revert det. induction xs as [|x xs IH]; intros det; simpl; [done|].
  case_match; [apply IH|done].
Qed.

Lemma classifyEvents_resolve det seen v ds rest :
  classifyEvents det seen v (map Resolve ds ++ rest) =
  match resolveRefs det ds with
  | None => EditResult.Malformed
  | Some det' => classifyEvents det' seen v rest
  end.
Proof.
  revert det. induction ds as [|d ds IH]; intros det; simpl; [done|].
  case_match; [apply IH|done].
Qed.

Context {C : Type}.
Variable onInvalidDetachedId : C -> C.

Lemma childRefs_cons_ref d cs : childRefs (DetachedRef d :: cs) = d :: childRefs cs.
Proof. reflexivity. Qed.
Lemma childRefs_cons_inline m cs : childRefs (Inline m :: cs) = childRefs cs.
Proof. reflexivity. Qed.
Lemma childInlines_cons_ref d cs : childInlines (DetachedRef d :: cs) = childInlines cs.
Proof. reflexivity. Qed.
Lemma childInlines_cons_inline m cs :
  childInlines (Inline m :: cs) = m :: childInlines cs.
Proof. reflexivity. Qed.

(** [processChildren] resolves the references among the children in turn
    and pushes the inline children, the last one ending on top. *)
Lemma processChildren_spec children : forall det c ids un,
  match resolveRefs det (childRefs children) with
  | Some det' => exists ids',
      processChildren onInvalidDetachedId det children c ids un
      = (Some (ids', rev (childInlines children) ++ un), det', c)
  | None => exists det',
      processChildren onInvalidDetachedId det children c ids un
      = (None, det', onInvalidDetachedId c)
  end.
Proof.
  induction children as [|[d|m] rest IH]; intros det c ids un.
  - by eexists.
  - rewrite childRefs_cons_ref, childInlines_cons_ref. cbn [processChildren resolveRefs].
    unfold getDetachedNodeIds. destruct (det !! d) as [x|]; [|by eexists].
    apply IH.
  - rewrite childRefs_cons_inline, childInlines_cons_inline.
    cbn [processChildren].
    specialize (IH det c (ids ++ [nodeIdentifier m]) (m :: un)).
    destruct (resolveRefs det (childRefs rest)); [|exact IH].
    destruct IH as [ids' ->]. eexists. simpl. by rewrite <- app_assoc.
Qed.

(** [collectTopLevel] runs the same loop over the top-level sequence. *)
Lemma collectTopLevel_spec sequence : forall det c ids un,
  match resolveRefs det (childRefs sequence) with
  | Some det' => exists ids',
      collectTopLevel onInvalidDetachedId det sequence c ids un
      = (Some (ids', rev (childInlines sequence) ++ un), det', c)
  | None => exists det',
      collectTopLevel onInvalidDetachedId det sequence c ids un
      = (None, det', onInvalidDetachedId c)
  end.
Proof.
  induction sequence as [|[d|m] rest IH]; intros det c ids un.
  - by eexists.
  - rewrite childRefs_cons_ref, childInlines_cons_ref. cbn [collectTopLevel resolveRefs].
    unfold getDetachedNodeIds. destruct (det !! d) as [x|]; [|by eexists].
    apply IH.
  - rewrite childRefs_cons_inline, childInlines_cons_inline.
    cbn [collectTopLevel].
    specialize (IH det c (ids ++ [nodeIdentifier m]) (m :: un)).
    destruct (resolveRefs det (childRefs rest)); [|exact IH].
    destruct IH as [ids' ->]. eexists. simpl. by rewrite <- app_assoc.
Qed.

Lemma processTraits_spec ts : forall det c acc un,
  match resolveRefs det (traitsRefs ts) with
  | Some det' => exists acc',
      processTraits onInvalidDetachedId det ts c acc un
      = (Some (acc', rev (traitsInlines ts) ++ un), det', c)
  | None => exists det',
      processTraits onInvalidDetachedId det ts c acc un
      = (None, det', onInvalidDetachedId c)
  end.
Proof.
  induction ts as [|[key children] rest IH]; intros det c acc un.
  - by eexists.
  - assert (Hr : traitsRefs ((key, children) :: rest)
                 = childRefs children ++ traitsRefs rest) by reflexivity.
    assert (Hi : traitsInlines ((key, children) :: rest)
                 = childInlines children ++ traitsInlines rest) by reflexivity.
    rewrite Hr, Hi, resolveRefs_app. cbn [processTraits].
    pose proof (processChildren_spec children det c [] un) as Hc.
    destruct (resolveRefs det (childRefs children)) as [d1|].
    + destruct Hc as [ids' ->].
      specialize (IH d1 c (acc ++ [(key, ids')])
                    (rev (childInlines children) ++ un)).
      destruct (resolveRefs d1 (traitsRefs rest)); [|exact IH].
      destruct IH as [acc' ->]. eexists.
      by rewrite rev_app_distr, <- app_assoc.
    + destruct Hc as [d' ->]. by eexists.
Qed.
Lemma inlineIds_unfold id d ts p :
  inlineIds (mkInlineNode id d ts p)
  = id :: concat (map inlineIds (traitsInlines ts)).
Proof.
  cbn [inlineIds]. f_equal.
  unfold traitsInlines. induction ts as [|[k cs] ts IH]; [done|].
  cbn [map concat]. rewrite map_app, concat_app, <- IH. f_equal.
  clear IH. unfold childInlines. simpl.
  induction cs as [|[d'|m] cs IHc]; simpl; [done|done|].
  by rewrite IHc.
Qed.

(** Every inline node of a tree is created by a step of its traversal. *)
Lemma nodeEvents_cover k : forall n, inlineNodeCount n <= k ->
  forall x, In x (inlineIds n) ->
  exists m, In (Create m) (nodeEvents n) /\ nodeIdentifier m = x.
Proof.
  induction k as [|k IH]; intros [id d ts p] Hk x Hx;
    rewrite inlineNodeCount_unfold in Hk; [lia|].
  rewrite inlineIds_unfold in Hx. rewrite nodeEvents_unfold.
  destruct Hx as [<-|Hx].
  - exists (mkInlineNode id d ts p). split; [|done].
    apply in_or_app. right. left. done.
  - apply in_concat in Hx as (ids & Hids & Hx).
    apply in_map_iff in Hids as (m0 & <- & Hm0).
    assert (Hle : inlineNodeCount m0 <= k).
    { pose proof (sum_list_with_in m0 inlineNodeCount (traitsInlines ts)) as Hs.
      rewrite list_elem_of_In in Hs. specialize (Hs Hm0). lia. }
    destruct (IH m0 Hle x Hx) as (m & Hm & Hid).
    exists m. split; [|done].
    apply in_or_app. right. right.
    apply in_concat. exists (nodeEvents m0). split; [|done].
    apply in_map. by apply in_rev in Hm0 as ?; rewrite <- in_rev.
Qed.

Lemma buildEvents_cover source x :
  In x (sourceInlineIds source) ->
  exists m, In (Create m) (buildEvents source) /\ nodeIdentifier m = x.
Proof.
  unfold sourceInlineIds, buildEvents. intros Hx.
  apply in_concat in Hx as (ids & Hids & Hx).
  apply in_map_iff in Hids as (m0 & <- & Hm0).
  destruct (nodeEvents_cover (inlineNodeCount m0) m0 (le_n _) x Hx)
    as (m & Hm & Hid).
  exists m. split; [|done].
  apply in_or_app. right. apply in_concat. exists (nodeEvents m0).
  split; [|done]. apply in_map. by rewrite <- in_rev.
Qed.

(** A traversal classified Applied creates no node already in the view. *)
Lemma classifyEvents_applied det seen v evs :
  classifyEvents det seen v evs = EditResult.Applied ->
  forall m, In (Create m) evs -> hasNode v (nodeIdentifier m) = false.
Proof.
  revert det seen. induction evs as [|[d|n] evs IH]; intros det seen;
    simpl; [done| |].
  - case_match; [|discriminate]. intros Hc m [Heq|Hin]; [discriminate|].
    eapply IH; eauto.
  - case_bool_decide; [discriminate|].
    destruct (hasNode v (nodeIdentifier n)) eqn:Hh; [discriminate|].
    intros Hc m [Heq|Hin]; [by injection Heq as ->|].
    eapply IH; eauto.
Qed.
End BuildTraversal.

Section BuildClassification.
Context {EU : EditUtilities}.

(** The [while] loop of the traversal, run with the callbacks of
    [applyBuild], ends with the flags set to the classification of the first
    failing step of [nodeEvents] over the stack, and completes when no step
    fails. *)
Lemma processStack_classify (v : Snapshot) fuel : forall det stack l seen,
  sum_list_with inlineNodeCount stack <= fuel ->
  idAlreadyPresent l = false -> duplicateIdInBuild l = false ->
  detachedSequenceNotFound l = false ->
  (forall id, is_Some (newNodes l !! id) <-> id ∈ seen) ->
  exists o det' l',
    processStack (buildOnCreateNode v) buildOnInvalidDetachedId fuel det stack l
    = (o, det', l') /\
    flagsResult l' = classifyEvents det seen v (concat (map nodeEvents stack)) /\
    (flagsResult l' = EditResult.Applied -> o = Some tt).
Proof.
  induction fuel as [|fuel IH]; intros det stack l seen Hfuel Hp Hd Hn Hseen;
    (destruct stack as [|n rest];
     [eexists _, _, _; split; [reflexivity|];
      unfold flagsResult; rewrite Hp, Hd, Hn; done|]);
    destruct n as [id d ts p]; cbn [sum_list_with] in Hfuel;
    rewrite inlineNodeCount_unfold in Hfuel; [lia|].
  cbn [processStack nodeTraits map concat].
  rewrite nodeEvents_unfold, <- app_assoc, classifyEvents_resolve.
  pose proof (processTraits_spec buildOnInvalidDetachedId ts det l [] rest) as Ht.
  destruct (resolveRefs det (traitsRefs ts)) as [d1|].
  - destruct Ht as [acc' ->]. cbn [app classifyEvents nodeIdentifier].
    unfold buildOnCreateNode. cbn [identifier].
    destruct (decide (id ∈ seen)) as [Hin|Hnin].
    + rewrite (bool_decide_eq_true_2 (id ∈ seen)) by done.
      rewrite bool_decide_eq_true_2 by (by apply Hseen).
      eexists _, _, _. split; [reflexivity|].
      unfold flagsResult; simpl. rewrite orb_true_r. split; [done|discriminate].
    + rewrite (bool_decide_eq_false_2 (id ∈ seen)) by done.
      rewrite bool_decide_eq_false_2 by (by rewrite Hseen).
      destruct (hasNode v id) eqn:Hh.
      * eexists _, _, _. split; [reflexivity|].
        unfold flagsResult; simpl. rewrite Hd, Hn. split; [done|discriminate].
      * rewrite <- concat_app, <- map_app.
        apply IH; simpl; try done.
        -- rewrite sum_list_with_app, sum_list_with_rev. lia.
        -- intros y. rewrite lookup_insert_is_Some', elem_of_cons, Hseen.
           naive_solver.
  - destruct Ht as [d' ->]. eexists _, _, _. split; [reflexivity|].
    unfold flagsResult; simpl. split; [done|discriminate].
Qed.

(** C2 (amended): a Build to a fresh destination returns the classification
    of the first failing step of its traversal in the order [buildEvents]:
    an unknown detached reference or an identifier created a second time
    gives Malformed, an identifier already in the view gives Invalid, and
    the traversal stops there; when no step fails the Build is Applied.
    So a Build with an inline identifier already in the view is never
    Applied, and when it also repeats an identifier, Malformed wins over
    Invalid only if the repetition is met first. *)
Theorem build_first_failure_decides (t : Transaction)
    (source : list EditNode) (destination : DetachedSequenceId) :
  detached t !! destination = None ->
  (exists t', dispatchChange t (Build source destination)
              = Done (classifyEvents (detached t) [] (view t)
                        (buildEvents source), t')) /\
  (forall x, In x (sourceInlineIds source) -> hasNode (view t) x = true ->
     classifyEvents (detached t) [] (view t) (buildEvents source)
     <> EditResult.Applied).
Proof.
  intros Hfresh. split; cycle 1.
  { intros x Hx Hv Happ.
    destruct (buildEvents_cover source x Hx) as (m & Hm & <-).
    rewrite (classifyEvents_applied _ _ _ _ Happ m Hm) in Hv. discriminate. }
  simpl. unfold applyBuild.
  rewrite bool_decide_eq_false_2 by (rewrite Hfresh; apply is_Some_None).
  unfold createSnapshotNodesForTree, buildEvents.
  rewrite classifyEvents_resolve.
  pose proof (collectTopLevel_spec buildOnInvalidDetachedId source (detached t)
                initialBuildLocals [] []) as Hc.
  destruct (resolveRefs (detached t) (childRefs source)) as [d1|].
  - destruct Hc as [ids ->]. rewrite app_nil_r.
    destruct (processStack_classify (view t) (sequenceCount source) d1
                (rev (childInlines source)) initialBuildLocals [])
      as (o & det' & l' & Hrun & Hres & Hsome).
    + rewrite sequenceCount_inlines, sum_list_with_rev. lia.
    + done.
    + done.
    + done.
    + intros id. simpl. rewrite lookup_empty. split.
      * intros []%is_Some_None.
      * intros []%elem_of_nil.
    + rewrite Hrun, <- Hres. unfold flagsResult in *.
      destruct o as [[]|]; simpl;
        (destruct (detachedSequenceNotFound l' || duplicateIdInBuild l');
         [by eexists|]);
        (destruct (idAlreadyPresent l'); [by eexists|]).
      * by eexists.
      * discriminate (Hsome eq_refl).
  - destruct Hc as [d' ->]. by eexists.
Qed.
End BuildClassification.

Lemma build_first_failure_decides_witness :
  classifyEvents ∅ [] exampleSnapshot
    (buildEvents [exampleLeaf 1; exampleLeaf 1]) = EditResult.Invalid /\
  exists t', dispatchChange (EU := exampleUtilities) (factory exampleSnapshot)
               (Build [exampleLeaf 1; exampleLeaf 1] 7)
             = Done (classifyEvents ∅ [] exampleSnapshot
                       (buildEvents [exampleLeaf 1; exampleLeaf 1]), t').
Proof.
  split; [vm_compute; reflexivity|].
  exact (proj1 (build_first_failure_decides (EU := exampleUtilities)
                  (factory exampleSnapshot) [exampleLeaf 1; exampleLeaf 1] 7
                  eq_refl)).
Defined.

(* ================================================================== *)
(** * What a successful Build requires and does *)

Section BuildPermutations.

Lemma concat_map_rev_perm {A B} (f g : A -> list B) (l : list A) :
  (forall x, In x l -> f x ≡ₚ g x) ->
  concat (map f (rev l)) ≡ₚ concat (map g l).
Proof.
  induction l as [|x l IH]; intros Hfg; simpl; [done|].
  rewrite map_app, concat_app. simpl. rewrite app_nil_r.
  rewrite Permutation_app_comm. apply Permutation_app.
  - apply Hfg. by left.
  - apply IH. intros y Hy. apply Hfg. by right.
Qed.

Lemma eventRefs_app xs ys : eventRefs (xs ++ ys) = eventRefs xs ++ eventRefs ys.
Proof. apply omap_app. Qed.

Lemma eventNodes_app xs ys : eventNodes (xs ++ ys) = eventNodes xs ++ eventNodes ys.
Proof. apply omap_app. Qed.

Lemma eventRefs_concat (L : list (list BuildEvent)) :
  eventRefs (concat L) = concat (map eventRefs L).
Proof. induction L as [|x L IH]; simpl; [done|]. by rewrite eventRefs_app, IH. Qed.

Lemma eventNodes_concat (L : list (list BuildEvent)) :
  eventNodes (concat L) = concat (map eventNodes L).
Proof. induction L as [|x L IH]; simpl; [done|]. by rewrite eventNodes_app, IH. Qed.

Lemma eventRefs_resolves ds : eventRefs (map Resolve ds) = ds.
Proof. induction ds as [|d ds IH]; simpl; [done|]. by rewrite IH. Qed.

Lemma eventNodes_resolves ds : eventNodes (map Resolve ds) = [].
Proof. induction ds as [|d ds IH]; simpl; [done|]. by rewrite IH. Qed.

Lemma nodeRefs_unfold id d ts p :
  nodeRefs (mkInlineNode id d ts p)
  = traitsRefs ts ++ concat (map nodeRefs (traitsInlines ts)).
Proof.
  cbn [nodeRefs]. f_equal.
  unfold traitsInlines. induction ts as [|[k cs] ts IH]; [done|].
  cbn [map concat]. rewrite map_app, concat_app, <- IH. f_equal.
  clear IH. unfold childInlines. simpl.
  induction cs as [|[d'|m] cs IHc]; simpl; [done|done|].
  by rewrite IHc.
Qed.

Lemma inlineNodes_unfold id d ts p :
  inlineNodes (mkInlineNode id d ts p)
  = mkInlineNode id d ts p :: concat (map inlineNodes (traitsInlines ts)).
Proof.
  cbn [inlineNodes]. f_equal.
  unfold traitsInlines. induction ts as [|[k cs] ts IH]; [done|].
  cbn [map concat]. rewrite map_app, concat_app, <- IH. f_equal.
  clear IH. unfold childInlines. simpl.
  induction cs as [|[d'|m] cs IHc]; simpl; [done|done|].
  by rewrite IHc.
Qed.

Lemma child_count_le k id d ts p m :
  inlineNodeCount (mkInlineNode id d ts p) <= S k ->
  In m (traitsInlines ts) -> inlineNodeCount m <= k.
Proof.
  rewrite inlineNodeCount_unfold. intros Hk Hm.
  pose proof (sum_list_with_in m inlineNodeCount (traitsInlines ts)) as Hs.
  rewrite list_elem_of_In in Hs. specialize (Hs Hm). lia.
Qed.

(** The traversal resolves exactly the references of the tree. *)
Lemma nodeEvents_refs_perm k : forall n, inlineNodeCount n <= k ->
  eventRefs (nodeEvents n) ≡ₚ nodeRefs n.
Proof.
  induction k as [|k IH]; intros [id d ts p] Hk;
    [rewrite inlineNodeCount_unfold in Hk; lia|].
  rewrite nodeEvents_unfold, nodeRefs_unfold, eventRefs_app, eventRefs_resolves.
  apply Permutation_app_head. simpl.
  rewrite eventRefs_concat, map_map.
  apply concat_map_rev_perm. intros m Hm. apply IH.
  by eapply child_count_le.
Qed.

(** The traversal creates exactly the inline nodes of the tree. *)
Lemma nodeEvents_nodes_perm k : forall n, inlineNodeCount n <= k ->
  eventNodes (nodeEvents n) ≡ₚ inlineNodes n.
Proof.
  induction k as [|k IH]; intros [id d ts p] Hk;
    [rewrite inlineNodeCount_unfold in Hk; lia|].
  rewrite nodeEvents_unfold, inlineNodes_unfold, eventNodes_app,
    eventNodes_resolves. simpl. apply perm_skip.
  rewrite eventNodes_concat, map_map.
  apply concat_map_rev_perm. intros m Hm. apply IH.
  by eapply child_count_le.
Qed.

Lemma inlineNodes_ids k : forall n, inlineNodeCount n <= k ->
  map nodeIdentifier (inlineNodes n) = inlineIds n.
Proof.
  induction k as [|k IH]; intros [id d ts p] Hk;
    [rewrite inlineNodeCount_unfold in Hk; lia|].
  rewrite inlineNodes_unfold, inlineIds_unfold. simpl. f_equal.
  rewrite concat_map, map_map. f_equal. apply map_ext_in.
  intros m Hm. apply IH. by eapply child_count_le.
Qed.

Lemma buildEvents_refs_perm source :
  eventRefs (buildEvents source) ≡ₚ sourceRefs source.
Proof.
  unfold buildEvents, sourceRefs.
  rewrite eventRefs_app, eventRefs_resolves. apply Permutation_app_head.
  rewrite eventRefs_concat, map_map. apply concat_map_rev_perm.
  intros m _. by apply (nodeEvents_refs_perm (inlineNodeCount m)).
Qed.

Lemma buildEvents_nodes_perm source :
  eventNodes (buildEvents source) ≡ₚ sourceInlineNodes source.
Proof.
  unfold buildEvents, sourceInlineNodes.
  rewrite eventNodes_app, eventNodes_resolves. simpl.
  rewrite eventNodes_concat, map_map. apply concat_map_rev_perm.
  intros m _. by apply (nodeEvents_nodes_perm (inlineNodeCount m)).
Qed.

Lemma sourceInlineNodes_ids source :
  map nodeIdentifier (sourceInlineNodes source) = sourceInlineIds source.
Proof.
  unfold sourceInlineNodes, sourceInlineIds.
  rewrite concat_map, map_map. f_equal. apply map_ext.
  intros m. by apply (inlineNodes_ids (inlineNodeCount m)).
Qed.

Lemma registry_delete_eq (det : Registry) d : delete d det !! d = None.
Proof. apply lookup_delete_eq. Qed.

Lemma registry_delete_ne (det : Registry) d d' :
  d <> d' -> delete d det !! d' = det !! d'.
Proof. apply lookup_delete_ne. Qed.

(** A traversal is classified Applied exactly when its created identifiers
    are pairwise distinct, unseen and absent from the view, and its
    references are pairwise distinct and all in the registry. *)
Lemma classifyEvents_applied_iff det seen v evs :
  classifyEvents det seen v evs = EditResult.Applied <->
  NoDup (map nodeIdentifier (eventNodes evs)) /\
  (forall x, x ∈ map nodeIdentifier (eventNodes evs) ->
     (x ∉ seen) /\ hasNode v x = false) /\
  NoDup (eventRefs evs) /\
  (forall d, d ∈ eventRefs evs -> is_Some (det !! d)).
Proof.
  revert det seen. induction evs as [|[d|n] evs IH]; intros det seen; simpl.
  - split; [|done]. intros _.
    split; [constructor|]. split; [intros ? []%elem_of_nil|].
    split; [constructor|]. intros ? []%elem_of_nil.
  - destruct (det !! d) as [x|] eqn:Hd.
    + rewrite IH. split.
      * intros (Hn & Hx & Hr & Hs). split; [done|]. split; [done|]. split.
        -- constructor; [|done]. intros Hin.
           destruct (Hs d Hin) as [y Hy]. by rewrite registry_delete_eq in Hy.
        -- intros d' [->|Hin]%elem_of_cons; [by eexists|].
           destruct (decide (d' = d)) as [->|Hne]; [by eexists|].
           rewrite <- (registry_delete_ne det d d') by congruence. by apply Hs.
      * intros (Hn & Hx & Hr & Hs). inversion Hr as [|? ? Hnin Hr']; subst.
        split; [done|]. split; [done|]. split; [done|].
        intros d' Hin. rewrite registry_delete_ne.
        -- apply Hs. by apply elem_of_cons; right.
        -- intros ->. apply Hnin. done.
    + split; [discriminate|]. intros (_ & _ & _ & Hs).
      destruct (Hs d (list_elem_of_here _ _)) as [y Hy]. congruence.
  - case_bool_decide as Hseen.
    + split; [discriminate|]. intros (_ & Hx & _).
      destruct (Hx (nodeIdentifier n) (list_elem_of_here _ _)). done.
    + destruct (hasNode v (nodeIdentifier n)) eqn:Hh.
      * split; [discriminate|]. intros (_ & Hx & _).
        destruct (Hx (nodeIdentifier n) (list_elem_of_here _ _)). congruence.
      * rewrite IH. split.
        -- intros (Hn & Hx & Hr & Hs). split; [|split; [|split; done]].
           ++ constructor; [|done]. intros Hin.
              destruct (Hx _ Hin) as [Hnot _]. apply Hnot.
              apply list_elem_of_here.
           ++ intros x [->|Hin]%elem_of_cons; [split; done|].
              destruct (Hx x Hin) as [Hnot Hv]. split; [|done].
              intros Hs'. apply Hnot. by apply list_elem_of_further.
        -- intros (Hn & Hx & Hr & Hs). inversion Hn as [|? ? Hnin Hn']; subst.
           split; [done|]. split; [|split; done].
           intros x Hin. split.
           ++ intros [->|Hs']%elem_of_cons.
              ** by apply Hnin.
              ** by destruct (Hx x (list_elem_of_further _ _ _ Hin)).
           ++ apply Hx. by apply list_elem_of_further.
Qed.
End BuildPermutations.

Section BuildOutcome.
Context {EU : EditUtilities}.

(** [applyBuild] to a fresh destination returns the classification of its
    traversal. *)
Lemma applyBuild_classify (t : Transaction) (source : list EditNode)
    (destination : DetachedSequenceId) :
  detached t !! destination = None ->
  exists t', applyBuild t source destination
             = Done (classifyEvents (detached t) [] (view t)
                       (buildEvents source), t').
Proof.
  intros Hfresh. unfold applyBuild.
  rewrite bool_decide_eq_false_2 by (rewrite Hfresh; apply is_Some_None).
  unfold createSnapshotNodesForTree, buildEvents.
  rewrite classifyEvents_resolve.
  pose proof (collectTopLevel_spec buildOnInvalidDetachedId source (detached t)
                initialBuildLocals [] []) as Hc.
  destruct (resolveRefs (detached t) (childRefs source)) as [d1|].
  - destruct Hc as [ids ->]. rewrite app_nil_r.
    destruct (processStack_classify (view t) (sequenceCount source) d1
                (rev (childInlines source)) initialBuildLocals [])
      as (o & det' & l' & Hrun & Hres & Hsome).
    + rewrite sequenceCount_inlines, sum_list_with_rev. lia.
    + done.
    + done.
    + done.
    + intros id. simpl. rewrite lookup_empty. split.
      * intros []%is_Some_None.
      * intros []%elem_of_nil.
    + rewrite Hrun, <- Hres. unfold flagsResult in *.
      destruct o as [[]|]; simpl;
        (destruct (detachedSequenceNotFound l' || duplicateIdInBuild l');
         [by eexists|]);
        (destruct (idAlreadyPresent l'); [by eexists|]).
      * by eexists.
      * discriminate (Hsome eq_refl).
  - destruct Hc as [d' ->]. by eexists.
Qed.

(** A Build is Applied exactly when its destination is not in the
    registry, the identifiers of its inline nodes are pairwise distinct and
    none is in the view, and the detached sequences it references (at any
    depth) are pairwise distinct and all in the registry. *)
Theorem build_applied_iff (t : Transaction) (source : list EditNode)
    (destination : DetachedSequenceId) :
  (exists t', dispatchChange t (Build source destination)
              = Done (EditResult.Applied, t')) <->
  detached t !! destination = None /\
  NoDup (sourceInlineIds source) /\
  (forall x, x ∈ sourceInlineIds source -> hasNode (view t) x = false) /\
  NoDup (sourceRefs source) /\
  (forall d, d ∈ sourceRefs source -> is_Some (detached t !! d)).
Proof.
  destruct (detached t !! destination) as [ids|] eqn:Hdest.
  - simpl. unfold applyBuild.
    rewrite bool_decide_eq_true_2 by (rewrite Hdest; by eexists).
    split; [intros [t' Ht']; discriminate|intros [Hn _]; discriminate].
  - destruct (applyBuild_classify t source destination Hdest) as [t0 Ht0].
    simpl. rewrite Ht0.
    transitivity (classifyEvents (detached t) [] (view t) (buildEvents source)
                  = EditResult.Applied).
    { split; [intros [t' Ht']; congruence|intros ->; by eexists]. }
    rewrite classifyEvents_applied_iff.
    pose proof (buildEvents_nodes_perm source) as Hn.
    apply (Permutation_map nodeIdentifier) in Hn.
    rewrite sourceInlineNodes_ids in Hn.
    pose proof (buildEvents_refs_perm source) as Hr.
    split.
    + intros (H1 & H2 & H3 & H4). split; [done|].
      split; [by rewrite <- Hn|]. split.
      * intros x Hx. rewrite <- Hn in Hx. by destruct (H2 x Hx).
      * split; [by rewrite <- Hr|]. intros d Hd. apply H4. by rewrite Hr.
    + intros (_ & H1 & H2 & H3 & H4). split; [by rewrite Hn|]. split.
      * intros x Hx. rewrite Hn in Hx.
        split; [apply not_elem_of_nil|by apply H2].
      * split; [by rewrite Hr|]. intros d Hd. apply H4. by rewrite <- Hr.
Qed.
End BuildOutcome.

Section BuildEffects.

Lemma registry_insert_eq (det : Registry) d ids : <[d := ids]> det !! d = Some ids.
Proof. apply lookup_insert_eq. Qed.

Lemma registry_insert_ne (det : Registry) d d' ids :
  d <> d' -> <[d := ids]> det !! d' = det !! d'.
Proof. apply lookup_insert_ne. Qed.

Lemma registry_delete_insert (det : Registry) d ids :
  det !! d = None -> delete d (<[d := ids]> det) = det.
Proof. apply delete_insert_id. Qed.

(** Resolving references succeeds only on pairwise distinct references
    present in the registry; it removes exactly them. *)
Lemma resolveRefs_Some det ds det' :
  resolveRefs det ds = Some det' ->
  NoDup ds /\
  (forall d, d ∈ ds -> is_Some (det !! d) /\ det' !! d = None) /\
  (forall d, d ∉ ds -> det' !! d = det !! d).
Proof.
  revert det. induction ds as [|d0 ds IH]; intros det; simpl.
  - intros [= ->]. split; [constructor|]. split; [|done].
    intros d []%elem_of_nil.
  - destruct (det !! d0) as [x|] eqn:Hd0; [|discriminate].
    intros (Hnd & Hin & Hout)%IH.
    assert (Hnin : d0 ∉ ds).
    { intros Hd. destruct (Hin d0 Hd) as [[y Hy] _].
      by rewrite registry_delete_eq in Hy. }
    split; [by constructor|]. split.
    + intros d [->|Hd]%elem_of_cons.
      * split; [by eexists|]. rewrite Hout by done. apply registry_delete_eq.
      * destruct (Hin d Hd) as [Hs Hn]. split; [|done].
        rewrite <- (registry_delete_ne det d0 d); [done|].
        intros ->. by apply Hnin.
    + intros d (Hne & Hd)%not_elem_of_cons. rewrite Hout by done.
      by apply registry_delete_ne.
Qed.

Lemma expandedIds_cons_ref det d cs :
  expandedIds det (DetachedRef d :: cs) = default [] (det !! d) ++ expandedIds det cs.
Proof. reflexivity. Qed.

Lemma expandedIds_cons_inline det m cs :
  expandedIds det (Inline m :: cs) = nodeIdentifier m :: expandedIds det cs.
Proof. reflexivity. Qed.

Lemma expandedIds_agree det1 det2 cs :
  (forall d, d ∈ childRefs cs -> det1 !! d = det2 !! d) ->
  expandedIds det1 cs = expandedIds det2 cs.
Proof.
  induction cs as [|[d|m] cs IH]; intros Hag; [done| |].
  - rewrite !expandedIds_cons_ref, childRefs_cons_ref in *.
    rewrite (Hag d (list_elem_of_here _ _)). f_equal.
    apply IH. intros d' Hd'. apply Hag. by apply list_elem_of_further.
  - rewrite !expandedIds_cons_inline, childRefs_cons_inline in *.
    f_equal. by apply IH.
Qed.

Lemma expandedTraits_agree det1 det2 ts :
  (forall d, d ∈ traitsRefs ts -> det1 !! d = det2 !! d) ->
  expandedTraits det1 ts = expandedTraits det2 ts.
Proof.
  induction ts as [|[k cs] ts IH]; intros Hag; [done|].
  assert (Hr : traitsRefs ((k, cs) :: ts) = childRefs cs ++ traitsRefs ts)
    by reflexivity.
  rewrite Hr in Hag. unfold expandedTraits in *. simpl. f_equal.
  - f_equal. apply expandedIds_agree. intros d Hd. apply Hag.
    apply elem_of_app. by left.
  - apply IH. intros d Hd. apply Hag. apply elem_of_app. by right.
Qed.

Lemma snapshotNodeOf_agree det1 det2 m :
  (forall d, d ∈ traitsRefs (nodeTraits m) -> det1 !! d = det2 !! d) ->
  snapshotNodeOf det1 m = snapshotNodeOf det2 m.
Proof.
  intros Hag. unfold snapshotNodeOf. by rewrite (expandedTraits_agree _ _ _ Hag).
Qed.

(** The references among the children of every node a traversal creates
    are resolved by that traversal. *)
Lemma nodeEvents_refs_closed k : forall n, inlineNodeCount n <= k ->
  forall m d, m ∈ eventNodes (nodeEvents n) -> d ∈ traitsRefs (nodeTraits m) ->
  d ∈ eventRefs (nodeEvents n).
Proof.
  induction k as [|k IH]; intros [id d0 ts p] Hk;
    [rewrite inlineNodeCount_unfold in Hk; lia|].
  intros m d. rewrite nodeEvents_unfold, eventNodes_app, eventNodes_resolves,
    eventRefs_app, eventRefs_resolves. simpl.
  rewrite eventNodes_concat, eventRefs_concat, !map_map.
  intros [->|Hm]%elem_of_cons Hd; apply elem_of_app; [by left|right].
  apply list_elem_of_In in Hm. apply in_concat in Hm as (ms & Hms & Hm).
  apply in_map_iff in Hms as (c & <- & Hc). apply list_elem_of_In in Hm.
  apply list_elem_of_In. apply in_concat.
  exists (eventRefs (nodeEvents c)). split; [apply in_map_iff; by exists c|].
  apply list_elem_of_In. eapply IH; [|done|done].
  eapply child_count_le; [exact Hk|]. by apply in_rev.
Qed.

Lemma stack_refs_closed stack m d :
  m ∈ eventNodes (concat (map nodeEvents stack)) ->
  d ∈ traitsRefs (nodeTraits m) ->
  d ∈ eventRefs (concat (map nodeEvents stack)).
Proof.
  rewrite eventNodes_concat, eventRefs_concat, !map_map. intros Hm Hd.
  apply list_elem_of_In in Hm. apply in_concat in Hm as (ms & Hms & Hm).
  apply in_map_iff in Hms as (c & <- & Hc). apply list_elem_of_In in Hm.
  apply list_elem_of_In. apply in_concat.
  exists (eventRefs (nodeEvents c)). split; [apply in_map_iff; by exists c|].
  apply list_elem_of_In.
  by eapply (nodeEvents_refs_closed (inlineNodeCount c)).
Qed.

(** A node created after some references were resolved expands its
    children as it would have before. *)
Lemma snapshotNodeOf_after_resolve det R d1 stack det' m :
  resolveRefs det R = Some d1 ->
  resolveRefs d1 (eventRefs (concat (map nodeEvents stack))) = Some det' ->
  m ∈ eventNodes (concat (map nodeEvents stack)) ->
  snapshotNodeOf d1 m = snapshotNodeOf det m.
Proof.
  intros H1 H2 Hm.
  assert (Hall : resolveRefs det (R ++ eventRefs (concat (map nodeEvents stack)))
                 = Some det') by (by rewrite resolveRefs_app, H1).
  apply resolveRefs_Some in Hall as (Hnd & _).
  apply NoDup_app in Hnd as (_ & Hdisj & _).
  apply resolveRefs_Some in H1 as (_ & _ & Hout).
  apply snapshotNodeOf_agree. intros d Hd. apply Hout.
  intros HdR. apply (Hdisj d HdR). by eapply stack_refs_closed.
Qed.

Context {C : Type}.
Variable onInvalidDetachedId : C -> C.

(** With all its references present, [processChildren] collects the
    expanded ids of the children. *)
Lemma processChildren_ids children : forall det c ids un det',
  resolveRefs det (childRefs children) = Some det' ->
  processChildren onInvalidDetachedId det children c ids un
  = (Some (ids ++ expandedIds det children,
           rev (childInlines children) ++ un), det', c).
Proof.
  induction children as [|[d|m] rest IH]; intros det c ids un det' Hr.
  - injection Hr as <-. simpl. by rewrite app_nil_r.
  - rewrite childRefs_cons_ref in Hr. cbn [resolveRefs] in Hr.
    destruct (det !! d) as [x|] eqn:Hd; [|discriminate].
    pose proof Hr as Hr'. apply resolveRefs_Some in Hr' as (_ & Hin & _).
    assert (Hag : expandedIds (delete d det) rest = expandedIds det rest).
    { apply expandedIds_agree. intros d' Hd'. apply registry_delete_ne.
      intros Heq. subst d'. destruct (Hin d Hd') as [[y Hy] _].
      by rewrite registry_delete_eq in Hy. }
    cbn [processChildren]. unfold getDetachedNodeIds. rewrite Hd.
    rewrite (IH _ _ _ _ _ Hr), expandedIds_cons_ref, Hd, childInlines_cons_ref.
    simpl. by rewrite <- app_assoc, Hag.
  - rewrite childRefs_cons_inline in Hr. cbn [processChildren].
    rewrite (IH _ _ _ _ _ Hr), expandedIds_cons_inline, childInlines_cons_inline.
    simpl. by rewrite <- !app_assoc.
Qed.

Lemma collectTopLevel_ids sequence : forall det c ids un det',
  resolveRefs det (childRefs sequence) = Some det' ->
  collectTopLevel onInvalidDetachedId det sequence c ids un
  = (Some (ids ++ expandedIds det sequence,
           rev (childInlines sequence) ++ un), det', c).
Proof.
  induction sequence as [|[d|m] rest IH]; intros det c ids un det' Hr.
  - injection Hr as <-. simpl. by rewrite app_nil_r.
  - rewrite childRefs_cons_ref in Hr. cbn [resolveRefs] in Hr.
    destruct (det !! d) as [x|] eqn:Hd; [|discriminate].
    pose proof Hr as Hr'. apply resolveRefs_Some in Hr' as (_ & Hin & _).
    assert (Hag : expandedIds (delete d det) rest = expandedIds det rest).
    { apply expandedIds_agree. intros d' Hd'. apply registry_delete_ne.
      intros Heq. subst d'. destruct (Hin d Hd') as [[y Hy] _].
      by rewrite registry_delete_eq in Hy. }
    cbn [collectTopLevel]. unfold getDetachedNodeIds. rewrite Hd.
    rewrite (IH _ _ _ _ _ Hr), expandedIds_cons_ref, Hd, childInlines_cons_ref.
    simpl. by rewrite <- app_assoc, Hag.
  - rewrite childRefs_cons_inline in Hr. cbn [collectTopLevel].
    rewrite (IH _ _ _ _ _ Hr), expandedIds_cons_inline, childInlines_cons_inline.
    simpl. by rewrite <- !app_assoc.
Qed.

Lemma processTraits_ids ts : forall det c acc un det',
  resolveRefs det (traitsRefs ts) = Some det' ->
  processTraits onInvalidDetachedId det ts c acc un
  = (Some (acc ++ expandedTraits det ts, rev (traitsInlines ts) ++ un), det', c).
Proof.
  induction ts as [|[key children] rest IH]; intros det c acc un det' Hr.
  - injection Hr as <-. simpl. by rewrite app_nil_r.
  - assert (Hrs : traitsRefs ((key, children) :: rest)
                  = childRefs children ++ traitsRefs rest) by reflexivity.
    assert (His : traitsInlines ((key, children) :: rest)
                  = childInlines children ++ traitsInlines rest) by reflexivity.
    rewrite Hrs in Hr. pose proof Hr as Hall.
    apply resolveRefs_Some in Hall as (Hnd & _).
    apply NoDup_app in Hnd as (_ & Hdisj & _).
    rewrite resolveRefs_app in Hr.
    destruct (resolveRefs det (childRefs children)) as [d1|] eqn:H1;
      [|discriminate].
    cbn [processTraits]. rewrite (processChildren_ids _ _ _ _ _ _ H1).
    assert (Hag : expandedTraits d1 rest = expandedTraits det rest).
    { apply resolveRefs_Some in H1 as (_ & _ & Hout).
      apply expandedTraits_agree. intros d Hd. apply Hout.
      intros Hc. by apply (Hdisj d Hc). }
    rewrite (IH _ _ _ _ _ Hr), His, Hag. simpl.
    by rewrite rev_app_distr, <- !app_assoc.
Qed.
End BuildEffects.

Section BuildRun.

Lemma stack_events_cons id d ts p rest :
  concat (map nodeEvents (mkInlineNode id d ts p :: rest))
  = map Resolve (traitsRefs ts) ++ Create (mkInlineNode id d ts p) ::
    concat (map nodeEvents (rev (traitsInlines ts) ++ rest)).
Proof.
  cbn [map concat]. rewrite nodeEvents_unfold, map_app, concat_app.
  by rewrite <- app_assoc.
Qed.

(** The records collected by the Build callback are never replaced. *)
Lemma processStack_newNodes_mono (v : Snapshot) fuel :
  forall det stack l o det' l',
  processStack (buildOnCreateNode v) buildOnInvalidDetachedId fuel det stack l
  = (o, det', l') ->
  forall x r, newNodes l !! x = Some r -> newNodes l' !! x = Some r.
Proof.
  induction fuel as [|fuel IH]; intros det stack l o det' l' Hrun x r Hx;
    (destruct stack as [|[id d ts p] rest];
     [cbn in Hrun; by injection Hrun as _ _ <-|]);
    cbn [processStack] in Hrun; [by injection Hrun as _ _ <-|].
  pose proof (processTraits_spec buildOnInvalidDetachedId ts det l [] rest) as Ht.
  cbn [nodeTraits] in Hrun.
  destruct (resolveRefs det (traitsRefs ts)) as [d1|].
  - destruct Ht as [acc' Ht]. rewrite Ht in Hrun.
    unfold buildOnCreateNode in Hrun.
  cbn [identifier nodeIdentifier nodeDefinition nodePayload] in Hrun.
    destruct (decide (is_Some (newNodes l !! id))) as [Hdup|Hdup].
    { rewrite bool_decide_eq_true_2 in Hrun by done.
      by injection Hrun as _ _ <-. }
    rewrite bool_decide_eq_false_2 in Hrun by done.
    destruct (hasNode v id); [by injection Hrun as _ _ <-|].
    eapply IH; [exact Hrun|]. simpl. rewrite lookup_insert_ne; [done|].
    intros ->. apply Hdup. by eexists.
  - destruct Ht as [d2 Ht]. rewrite Ht in Hrun. by injection Hrun as _ _ <-.
Qed.

(** A completed stack traversal with the Build callbacks resolves every
    reference of the stack, records exactly the nodes it creates, and
    records each of them with its children expanded against the registry
    it started from. *)
Lemma processStack_applied (v : Snapshot) fuel :
  forall det stack l det' l',
  processStack (buildOnCreateNode v) buildOnInvalidDetachedId fuel det stack l
  = (Some tt, det', l') ->
  let evs := concat (map nodeEvents stack) in
  resolveRefs det (eventRefs evs) = Some det' /\
  (forall x, x ∉ map nodeIdentifier (eventNodes evs) ->
     newNodes l' !! x = newNodes l !! x) /\
  (forall m, m ∈ eventNodes evs ->
     newNodes l' !! nodeIdentifier m = Some (snapshotNodeOf det m)).
Proof.
  induction fuel as [|fuel IH]; intros det stack l det' l' Hrun evs;
    (destruct stack as [|[id d ts p] rest];
     [cbn in Hrun; injection Hrun as <- <-; subst evs; simpl;
      split; [done|]; split; [done|]; intros m []%elem_of_nil|]);
    cbn [processStack] in Hrun; [discriminate|].
  cbn [nodeTraits] in Hrun.
  destruct (resolveRefs det (traitsRefs ts)) as [d1|] eqn:Hr1.
  2:{ pose proof (processTraits_spec buildOnInvalidDetachedId ts det l [] rest)
        as Ht. rewrite Hr1 in Ht. destruct Ht as [d2 Ht].
      rewrite Ht in Hrun. discriminate. }
  rewrite (processTraits_ids buildOnInvalidDetachedId ts det l [] rest d1 Hr1)
    in Hrun.
  unfold buildOnCreateNode in Hrun.
  cbn [identifier nodeIdentifier nodeDefinition nodePayload] in Hrun.
  destruct (decide (is_Some (newNodes l !! id))) as [Hdup|Hdup].
  { rewrite bool_decide_eq_true_2 in Hrun by done. discriminate. }
  rewrite bool_decide_eq_false_2 in Hrun by done.
  destruct (hasNode v id) eqn:Hh; [discriminate|].
  set (l1 := {| idAlreadyPresent := idAlreadyPresent l;
                duplicateIdInBuild := duplicateIdInBuild l;
                detachedSequenceNotFound := detachedSequenceNotFound l;
                newNodes := <[id := snapshotNodeOf det (mkInlineNode id d ts p)]>
                              (newNodes l) |}) in Hrun.
  pose proof (processStack_newNodes_mono _ _ _ _ _ _ _ _ Hrun) as Hmono.
  destruct (IH _ _ _ _ _ Hrun) as (Hres & Hout & Hin).
  subst evs. rewrite stack_events_cons, eventRefs_app, eventRefs_resolves,
    eventNodes_app, eventNodes_resolves. cbn [eventRefs eventNodes omap app].
  set (evs' := concat (map nodeEvents (rev (traitsInlines ts) ++ rest))) in *.
  split; [|split].
  - by rewrite resolveRefs_app, Hr1.
  - intros x Hx. simpl in Hx. apply not_elem_of_cons in Hx as [Hne Hx].
    rewrite Hout by done. simpl. by rewrite lookup_insert_ne by congruence.
  - intros m [->|Hm]%elem_of_cons.
    + apply Hmono. simpl. apply lookup_insert_eq.
    + rewrite Hin by done. f_equal.
      by eapply snapshotNodeOf_after_resolve.
Qed.

(** A traversal with the Build callbacks that returns its top-level ids
    returns them expanded, has resolved every reference of the tree, and
    has recorded exactly the tree's inline nodes. *)
Lemma createSnapshotNodesForTree_applied (v : Snapshot) det source l ids det' l' :
  createSnapshotNodesForTree (buildOnCreateNode v) buildOnInvalidDetachedId
    det source l = (Some ids, det', l') ->
  ids = expandedIds det source /\
  resolveRefs det (eventRefs (buildEvents source)) = Some det' /\
  (forall x, x ∉ map nodeIdentifier (eventNodes (buildEvents source)) ->
     newNodes l' !! x = newNodes l !! x) /\
  (forall m, m ∈ eventNodes (buildEvents source) ->
     newNodes l' !! nodeIdentifier m = Some (snapshotNodeOf det m)).
Proof.
  unfold createSnapshotNodesForTree.
  destruct (resolveRefs det (childRefs source)) as [d1|] eqn:Hr0.
  2:{ pose proof (collectTopLevel_spec buildOnInvalidDetachedId source det l
                    [] []) as Hc. rewrite Hr0 in Hc. destruct Hc as [d2 ->].
      discriminate. }
  rewrite (collectTopLevel_ids buildOnInvalidDetachedId source det l [] [] d1 Hr0).
  rewrite app_nil_r.
  destruct (processStack _ _ _ _ _ _) as [[[[]|] d2] l2] eqn:Hps;
    [|discriminate].
  intros [= <- <- <-].
  destruct (processStack_applied v _ _ _ _ _ _ Hps) as (Hres & Hout & Hin).
  unfold buildEvents. rewrite eventRefs_app, eventRefs_resolves,
    eventNodes_app, eventNodes_resolves. simpl.
  split; [done|]. split; [by rewrite resolveRefs_app, Hr0|]. split; [done|].
  intros m Hm. rewrite Hin by done. f_equal.
  by eapply snapshotNodeOf_after_resolve.
Qed.
End BuildRun.

Section BuildApplied.
Context {EU : EditUtilities}.

Lemma applyBuild_applied_inv (t t' : Transaction) source destination :
  dispatchChange t (Build source destination) = Done (EditResult.Applied, t') ->
  detached t !! destination = None /\
  exists ids det l,
    createSnapshotNodesForTree (buildOnCreateNode (view t))
      buildOnInvalidDetachedId (detached t) source initialBuildLocals
    = (Some ids, det, l) /\
    t' = {| view := insertSnapshotNodes (view t) (newNodes l);
            detached := <[destination := ids]> det |}.
Proof.
  simpl. unfold applyBuild.
  destruct (decide (is_Some (detached t !! destination))) as [Hd|Hd].
  { rewrite bool_decide_eq_true_2 by done. discriminate. }
  rewrite bool_decide_eq_false_2 by done.
  destruct (createSnapshotNodesForTree _ _ _ _ _) as [[newIds det] l] eqn:Hc.
  destruct (detachedSequenceNotFound l || duplicateIdInBuild l);
    [discriminate|].
  destruct (idAlreadyPresent l); [discriminate|].
  destruct newIds as [ids|]; [|discriminate].
  intros [= <-]. split; [by apply eq_None_not_Some|].
  by exists ids, det, l.
Qed.

(** A successful Build stores under its destination the ids of its source
    in order: each top-level inline node's identifier and, for each
    top-level detached reference, the sequence the registry held for it.
    Every detached sequence the source references (at any depth) is removed
    from the registry, and every other entry is unchanged. *)
Theorem build_applied_registry (t t' : Transaction) (source : list EditNode)
    (destination : DetachedSequenceId) :
  dispatchChange t (Build source destination) = Done (EditResult.Applied, t') ->
  detached t' !! destination = Some (expandedIds (detached t) source) /\
  (forall d, d ∈ sourceRefs source -> detached t' !! d = None) /\
  (forall d, d <> destination -> d ∉ sourceRefs source ->
     detached t' !! d = detached t !! d).
Proof.
  intros (Hfresh & ids & det & l & Hc & ->)%applyBuild_applied_inv.
  apply createSnapshotNodesForTree_applied in Hc as (-> & Hres & _).
  apply resolveRefs_Some in Hres as (_ & Hin & Hout).
  pose proof (buildEvents_refs_perm source) as Hp. simpl.
  split; [apply registry_insert_eq|]. split.
  - intros d Hd. rewrite <- Hp in Hd. destruct (Hin d Hd) as [Hs Hn].
    rewrite registry_insert_ne; [done|].
    intros Heq. subst d. destruct Hs as [y Hy].
    change (detached t !! destination = Some y) in Hy. congruence.
  - intros d Hne Hd. rewrite registry_insert_ne by congruence.
    apply Hout. by rewrite Hp.
Qed.

(** A successful Build keeps the root, adds each inline node of its source
    to the view with its identifier, definition and payload and its traits
    with every detached reference expanded to the sequence the registry
    held for it, and leaves the record of every other id unchanged. *)
Theorem build_applied_view (t t' : Transaction) (source : list EditNode)
    (destination : DetachedSequenceId) :
  dispatchChange t (Build source destination) = Done (EditResult.Applied, t') ->
  root (view t') = root (view t) /\
  (forall n, n ∈ sourceInlineNodes source ->
     getSnapshotNode (view t') (nodeIdentifier n)
     = Some (snapshotNodeOf (detached t) n)) /\
  (forall x, x ∉ sourceInlineIds source ->
     getSnapshotNode (view t') x = getSnapshotNode (view t) x).
Proof.
  intros (Hfresh & ids & det & l & Hc & ->)%applyBuild_applied_inv.
  apply createSnapshotNodesForTree_applied in Hc as (_ & _ & Hout & Hin).
  pose proof (buildEvents_nodes_perm source) as Hp.
  unfold getSnapshotNode, insertSnapshotNodes. simpl.
  split; [done|]. split.
  - intros n Hn. apply lookup_union_Some_l. apply Hin. by rewrite Hp.
  - intros x Hx. apply lookup_union_r. rewrite Hout; [apply lookup_empty|].
    rewrite Hp, sourceInlineNodes_ids. done.
Qed.
End BuildApplied.

Section ChangeComposition.
Context {EU : EditUtilities}.

(** A successful Build removes from the registry every detached sequence
    its source references. *)
Lemma build_applied_consumed (t t' : Transaction) source destination d :
  dispatchChange t (Build source destination) = Done (EditResult.Applied, t') ->
  d ∈ sourceRefs source -> detached t' !! d = None.
Proof.
  intros (Hfresh & ids & det & l & Hc & ->)%applyBuild_applied_inv Hd.
  apply createSnapshotNodesForTree_applied in Hc as (_ & Hres & _).
  apply resolveRefs_Some in Hres as (_ & Hin & _).
  rewrite <- (buildEvents_refs_perm source) in Hd.
  destruct (Hin d Hd) as [Hs Hn]. simpl.
  rewrite registry_insert_ne; [done|].
  intros Heq. subst d. destruct Hs as [y Hy].
  change (detached t !! destination = Some y) in Hy. congruence.
Qed.

(** A detached sequence used by a successful Build cannot be parented
    again: a later Insert of it is Malformed and changes nothing, and no
    later Build referencing it is Applied. *)
Theorem build_prevents_multi_parenting (t t1 : Transaction)
    (source : list EditNode) (destination d : DetachedSequenceId) :
  dispatchChange t (Build source destination) = Done (EditResult.Applied, t1) ->
  d ∈ sourceRefs source ->
  (forall place, dispatchChange t1 (Insert d place)
                 = Done (EditResult.Malformed, t1)) /\
  (forall source' destination' t2, d ∈ sourceRefs source' ->
     dispatchChange t1 (Build source' destination')
     <> Done (EditResult.Applied, t2)).
Proof.
  intros Hb Hd. pose proof (build_applied_consumed _ _ _ _ _ Hb Hd) as Hnone.
  split.
  - intros place. simpl. unfold applyInsert. by rewrite Hnone.
  - intros source' destination' t2 Hd' Hb'.
    apply applyBuild_applied_inv in Hb' as (_ & ids & det & l & Hc & _).
    apply createSnapshotNodesForTree_applied in Hc as (_ & Hres & _).
    apply resolveRefs_Some in Hres as (_ & Hin & _).
    rewrite <- (buildEvents_refs_perm source') in Hd'.
    destruct (Hin d Hd') as [[y Hy] _].
    change (detached t1 !! d = Some y) in Hy. congruence.
Qed.

(** An Insert consumes its source: inserting the same detached sequence
    again is Malformed and changes nothing. *)
Theorem insert_consumes_source (t t1 : Transaction)
    (source : DetachedSequenceId) (place place' : StablePlace) :
  dispatchChange t (Insert source place) = Done (EditResult.Applied, t1) ->
  dispatchChange t1 (Insert source place') = Done (EditResult.Malformed, t1).
Proof.
  simpl. unfold applyInsert.
  destruct (detached t !! source) as [ids|]; [|discriminate].
  destruct (validateStablePlace (view t) place); try discriminate.
  intros [= <-]. simpl. by rewrite registry_delete_eq.
Qed.

(** Detaching a range to a destination and then inserting that
    destination leaves the registry as it was, and the view is the
    residual view of the Detach with the detached ids inserted at the
    place. *)
Theorem detach_insert_round_trip (t t1 t2 : Transaction) (range : StableRange)
    (destination : DetachedSequenceId) (place : StablePlace) :
  dispatchChange t (Detach range (Some destination))
  = Done (EditResult.Applied, t1) ->
  dispatchChange t1 (Insert destination place) = Done (EditResult.Applied, t2) ->
  detached t2 = detached t /\
  view t2 = insertIntoTrait (fst (detachRange (view t) range))
              (snd (detachRange (view t) range)) place.
Proof.
  simpl. unfold applyDetach, applyInsert.
  destruct (validateStableRange (view t) range); try discriminate.
  destruct (detachRange (view t) range) as [residual ids]. simpl.
  destruct (decide (is_Some (detached t !! destination))) as [Hd|Hd].
  { rewrite bool_decide_eq_true_2 by done. discriminate. }
  rewrite bool_decide_eq_false_2 by done.
  intros [= <-]. simpl. rewrite registry_insert_eq.
  destruct (validateStablePlace residual place); try discriminate.
  intros [= <-]. simpl. split; [|done].
  apply delete_insert_id. by apply eq_None_not_Some.
Qed.

(** Setting a node's value twice is the same as setting it once to the
    second payload. *)
Theorem set_value_last_write_wins (t t1 : Transaction) (nodeToModify : NodeId)
    (payload1 payload2 : option Payload) :
  dispatchChange t (SetValue nodeToModify payload1)
  = Done (EditResult.Applied, t1) ->
  dispatchChange t1 (SetValue nodeToModify payload2)
  = dispatchChange t (SetValue nodeToModify payload2).
Proof.
  simpl. unfold applySetValue.
  destruct (hasNode (view t) nodeToModify); [|discriminate]. simpl.
  destruct (getSnapshotNode (view t) nodeToModify) as [node|]; [|discriminate].
  intros [= <-]. simpl.
  unfold hasNode, getSnapshotNode, replaceNodeData. simpl.
  rewrite lookup_insert_eq. simpl. rewrite insert_insert_eq. done.
Qed.

(** The only change that fails an assertion instead of returning a result
    is a Constraint with an identityHash or a contentHash; the other
    assertions of the apply methods are never reached. *)
Theorem dispatch_fails_only_on_hash_constraints (t : Transaction)
    (change : Change) :
  (exists message, dispatchChange t change = Fail message) <->
  match change with
  | Constraint _ _ _ _ _ identityHash contentHash =>
      is_Some identityHash \/ is_Some contentHash
  | _ => False
  end.
Proof.
  destruct change as [source destination|source destination|source destination
                     |toConstrain effect length parentNode label identityHash
                        contentHash|nodeToModify payload].
  - split; [|done]. intros [message Hm].
    destruct (detached t !! destination) as [ids|] eqn:Hd.
    + simpl in Hm. unfold applyBuild in Hm.
      rewrite bool_decide_eq_true_2 in Hm by (rewrite Hd; by eexists).
      discriminate.
    + destruct (applyBuild_classify t source destination Hd) as [t' Ht'].
      simpl in Hm. congruence.
  - split; [|done]. intros [message Hm]. simpl in Hm. unfold applyInsert in Hm.
    repeat case_match; discriminate.
  - split; [|done]. intros [message Hm]. simpl in Hm. unfold applyDetach in Hm.
    repeat case_match; discriminate.
  - simpl. unfold applyConstraint. split.
    + intros [message Hm].
      destruct identityHash as [h|]; [left; by eexists|].
      destruct contentHash as [h|]; [right; by eexists|].
      rewrite !bool_decide_eq_false_2 in Hm by apply is_Some_None.
      repeat case_match; discriminate.
    + intros [Hi|Hc].
      * rewrite bool_decide_eq_true_2 by done. by eexists.
      * case_bool_decide; [by eexists|].
        rewrite bool_decide_eq_true_2 by done. by eexists.
  - split; [|done]. intros [message Hm]. simpl in Hm. unfold applySetValue in Hm.
    destruct (hasNode (view t) nodeToModify) eqn:Hh; [|discriminate].
    unfold hasNode in Hh. apply bool_decide_eq_true_1 in Hh as [node Hnode].
    unfold getSnapshotNode in Hm. simpl in Hm. rewrite Hnode in Hm.
    discriminate.
Qed.
(** Building a tree into a fresh destination and then inserting that
    destination leaves in the registry exactly the entries the tree did
    not reference, as they were, and inserts the tree's top-level ids at
    the place. *)
Theorem build_insert_round_trip (t t1 t2 : Transaction)
    (source : list EditNode) (destination : DetachedSequenceId)
    (place : StablePlace) :
  dispatchChange t (Build source destination) = Done (EditResult.Applied, t1) ->
  dispatchChange t1 (Insert destination place) = Done (EditResult.Applied, t2) ->
  (forall d, d ∈ sourceRefs source -> detached t2 !! d = None) /\
  (forall d, d ∉ sourceRefs source -> detached t2 !! d = detached t !! d) /\
  view t2 = insertIntoTrait (view t1) (expandedIds (detached t) source) place.
Proof.
  intros Hb. pose proof Hb as Hb'.
  apply applyBuild_applied_inv in Hb' as (Hfresh & ids & det & l & Hc & ->).
  apply createSnapshotNodesForTree_applied in Hc as (-> & Hres & _).
  apply resolveRefs_Some in Hres as (_ & Hin & Hout).
  pose proof (buildEvents_refs_perm source) as Hp.
  simpl. unfold applyInsert. simpl. rewrite registry_insert_eq.
  destruct (validateStablePlace _ place); try discriminate.
  intros [= <-]. simpl.
  assert (Hdest : det !! destination = None).
  { destruct (decide (destination ∈ sourceRefs source)) as [Hd|Hd].
    - rewrite <- Hp in Hd. by destruct (Hin _ Hd).
    - rewrite <- Hp in Hd. by rewrite Hout. }
  rewrite registry_delete_insert by done.
  split; [|split; [|done]].
  - intros d Hd. rewrite <- Hp in Hd. by destruct (Hin d Hd).
  - intros d Hd. rewrite <- Hp in Hd. by apply Hout.
Qed.
End ChangeComposition.

Lemma build_applied_registry_witness :
  dispatchChange (EU := exampleUtilities) exampleDetachedState (Build exampleTree 1)
  = Done (EditResult.Applied,
          stepState (EU := exampleUtilities) exampleDetachedState
            (Build exampleTree 1)) /\
  let t' := stepState (EU := exampleUtilities) exampleDetachedState
              (Build exampleTree 1) in
  detached t' !! 1 = Some (expandedIds (detached exampleDetachedState) exampleTree) /\
  (forall d, d ∈ sourceRefs exampleTree -> detached t' !! d = None) /\
  (forall d, d <> 1 -> d ∉ sourceRefs exampleTree ->
     detached t' !! d = detached exampleDetachedState !! d).
Proof.
  assert (H : dispatchChange (EU := exampleUtilities) exampleDetachedState
                (Build exampleTree 1)
              = Done (EditResult.Applied,
                      stepState (EU := exampleUtilities) exampleDetachedState
                        (Build exampleTree 1)))
    by (vm_compute; reflexivity).
  split; [exact H|].
  exact (build_applied_registry (EU := exampleUtilities) _ _ _ _ H).
Defined.

Lemma build_applied_view_witness :
  dispatchChange (EU := exampleUtilities) exampleDetachedState (Build exampleTree 1)
  = Done (EditResult.Applied,
          stepState (EU := exampleUtilities) exampleDetachedState
            (Build exampleTree 1)) /\
  let t' := stepState (EU := exampleUtilities) exampleDetachedState
              (Build exampleTree 1) in
  root (view t') = root (view exampleDetachedState) /\
  (forall n, n ∈ sourceInlineNodes exampleTree ->
     getSnapshotNode (view t') (nodeIdentifier n)
     = Some (snapshotNodeOf (detached exampleDetachedState) n)) /\
  (forall x, x ∉ sourceInlineIds exampleTree ->
     getSnapshotNode (view t') x = getSnapshotNode (view exampleDetachedState) x).
Proof.
  assert (H : dispatchChange (EU := exampleUtilities) exampleDetachedState
                (Build exampleTree 1)
              = Done (EditResult.Applied,
                      stepState (EU := exampleUtilities) exampleDetachedState
                        (Build exampleTree 1)))
    by (vm_compute; reflexivity).
  split; [exact H|].
  exact (build_applied_view (EU := exampleUtilities) _ _ _ _ H).
Defined.

Lemma build_prevents_multi_parenting_witness :
  dispatchChange (EU := exampleUtilities) exampleDetachedState (Build exampleTree 1)
  = Done (EditResult.Applied,
          stepState (EU := exampleUtilities) exampleDetachedState
            (Build exampleTree 1)) /\
  0 ∈ sourceRefs exampleTree /\
  let t1 := stepState (EU := exampleUtilities) exampleDetachedState
              (Build exampleTree 1) in
  (forall place, dispatchChange (EU := exampleUtilities) t1 (Insert 0 place)
                 = Done (EditResult.Malformed, t1)) /\
  (forall source' destination' t2, 0 ∈ sourceRefs source' ->
     dispatchChange (EU := exampleUtilities) t1 (Build source' destination')
     <> Done (EditResult.Applied, t2)).
Proof.
  assert (H : dispatchChange (EU := exampleUtilities) exampleDetachedState
                (Build exampleTree 1)
              = Done (EditResult.Applied,
                      stepState (EU := exampleUtilities) exampleDetachedState
                        (Build exampleTree 1)))
    by (vm_compute; reflexivity).
  assert (Hd : 0 ∈ sourceRefs exampleTree)
    by (apply (bool_decide_unpack _); vm_compute; reflexivity).
  split; [exact H|]. split; [exact Hd|].
  exact (build_prevents_multi_parenting (EU := exampleUtilities) _ _ _ _ _ H Hd).
Defined.

Lemma insert_consumes_source_witness :
  dispatchChange (EU := exampleUtilities) exampleDetachedState
    (Insert 0 (examplePlaceAt 1))
  = Done (EditResult.Applied,
          stepState (EU := exampleUtilities) exampleDetachedState
            (Insert 0 (examplePlaceAt 1))) /\
  dispatchChange (EU := exampleUtilities)
    (stepState (EU := exampleUtilities) exampleDetachedState
       (Insert 0 (examplePlaceAt 1)))
    (Insert 0 (examplePlaceAt 2))
  = Done (EditResult.Malformed,
          stepState (EU := exampleUtilities) exampleDetachedState
            (Insert 0 (examplePlaceAt 1))).
Proof.
  assert (H : dispatchChange (EU := exampleUtilities) exampleDetachedState
                (Insert 0 (examplePlaceAt 1))
              = Done (EditResult.Applied,
                      stepState (EU := exampleUtilities) exampleDetachedState
                        (Insert 0 (examplePlaceAt 1))))
    by (vm_compute; reflexivity).
  split; [exact H|].
  exact (insert_consumes_source (EU := exampleUtilities) _ _ _ _ _ H).
Defined.

Lemma detach_insert_round_trip_witness :
  let t := factory exampleSnapshot in
  let t1 := stepState (EU := exampleUtilities) t
              (Detach (exampleRangeAt 2) (Some 5)) in
  let t2 := stepState (EU := exampleUtilities) t1
              (Insert 5 (examplePlaceAt 1)) in
  dispatchChange (EU := exampleUtilities) t (Detach (exampleRangeAt 2) (Some 5))
  = Done (EditResult.Applied, t1) /\
  dispatchChange (EU := exampleUtilities) t1 (Insert 5 (examplePlaceAt 1))
  = Done (EditResult.Applied, t2) /\
  detached t2 = detached t /\
  view t2 = insertIntoTrait (EditUtilities := exampleUtilities)
              (fst (detachRange (EditUtilities := exampleUtilities)
                      (view t) (exampleRangeAt 2)))
              (snd (detachRange (EditUtilities := exampleUtilities)
                      (view t) (exampleRangeAt 2)))
              (examplePlaceAt 1).
Proof.
  intros t t1 t2.
  assert (H1 : dispatchChange (EU := exampleUtilities) t
                 (Detach (exampleRangeAt 2) (Some 5))
               = Done (EditResult.Applied, t1)) by (vm_compute; reflexivity).
  assert (H2 : dispatchChange (EU := exampleUtilities) t1
                 (Insert 5 (examplePlaceAt 1))
               = Done (EditResult.Applied, t2)) by (vm_compute; reflexivity).
  split; [exact H1|]. split; [exact H2|].
  exact (detach_insert_round_trip (EU := exampleUtilities) _ _ _ _ _ _ H1 H2).
Defined.

Lemma set_value_last_write_wins_witness :
  let t := factory exampleSnapshot in
  let t1 := stepState (EU := exampleUtilities) t (SetValue 1 (Some "a")) in
  dispatchChange (EU := exampleUtilities) t (SetValue 1 (Some "a"))
  = Done (EditResult.Applied, t1) /\
  dispatchChange (EU := exampleUtilities) t1 (SetValue 1 None)
  = dispatchChange (EU := exampleUtilities) t (SetValue 1 None).
Proof.
  intros t t1.
  assert (H : dispatchChange (EU := exampleUtilities) t (SetValue 1 (Some "a"))
              = Done (EditResult.Applied, t1)) by (vm_compute; reflexivity).
  split; [exact H|].
  exact (set_value_last_write_wins (EU := exampleUtilities) _ _ _ _ _ H).
Defined.

Lemma build_insert_round_trip_witness :
  let t1 := stepState (EU := exampleUtilities) exampleDetachedState
              (Build exampleTree 1) in
  let t2 := stepState (EU := exampleUtilities) t1
              (Insert 1 (examplePlaceAt 1)) in
  dispatchChange (EU := exampleUtilities) exampleDetachedState (Build exampleTree 1)
  = Done (EditResult.Applied, t1) /\
  dispatchChange (EU := exampleUtilities) t1 (Insert 1 (examplePlaceAt 1))
  = Done (EditResult.Applied, t2) /\
  (forall d, d ∈ sourceRefs exampleTree -> detached t2 !! d = None) /\
  (forall d, d ∉ sourceRefs exampleTree ->
     detached t2 !! d = detached exampleDetachedState !! d) /\
  view t2 = insertIntoTrait (EditUtilities := exampleUtilities) (view t1)
              (expandedIds (detached exampleDetachedState) exampleTree)
              (examplePlaceAt 1).
Proof.
  intros t1 t2.
  assert (H1 : dispatchChange (EU := exampleUtilities) exampleDetachedState
                 (Build exampleTree 1) = Done (EditResult.Applied, t1))
    by (vm_compute; reflexivity).
  assert (H2 : dispatchChange (EU := exampleUtilities) t1
                 (Insert 1 (examplePlaceAt 1)) = Done (EditResult.Applied, t2))
    by (vm_compute; reflexivity).
  split; [exact H1|]. split; [exact H2|].
  exact (build_insert_round_trip (EU := exampleUtilities) _ _ _ _ _ _ H1 H2).
Defined.

Section TraversalFrame.
Context {C : Type}.
Variable onCreateNode : NodeId -> SnapshotNode -> C -> bool * C.
Variable onInvalidDetachedId : C -> C.

(** The traversal only ever removes registry entries it was asked to
    resolve: whatever its outcome, every other entry is unchanged. *)
Lemma processChildren_frame children : forall det c ids un o det' c',
  processChildren onInvalidDetachedId det children c ids un = (o, det', c') ->
  forall d, d ∉ childRefs children -> det' !! d = det !! d.
Proof.
  induction children as [|[d0|m] rest IH]; intros det c ids un o det' c' Hrun d Hd.
  - by injection Hrun as _ <- _.
  - rewrite childRefs_cons_ref in Hd. apply not_elem_of_cons in Hd as [Hne Hd].
    cbn [processChildren] in Hrun. unfold getDetachedNodeIds in Hrun.
    destruct (det !! d0) as [x|]; [|by injection Hrun as _ <- _].
    rewrite (IH _ _ _ _ _ _ _ Hrun d Hd). by apply registry_delete_ne.
  - rewrite childRefs_cons_inline in Hd. cbn [processChildren] in Hrun.
    exact (IH _ _ _ _ _ _ _ Hrun d Hd).
Qed.

Lemma collectTopLevel_frame sequence : forall det c ids un o det' c',
  collectTopLevel onInvalidDetachedId det sequence c ids un = (o, det', c') ->
  forall d, d ∉ childRefs sequence -> det' !! d = det !! d.
Proof.
  induction sequence as [|[d0|m] rest IH]; intros det c ids un o det' c' Hrun d Hd.
  - by injection Hrun as _ <- _.
  - rewrite childRefs_cons_ref in Hd. apply not_elem_of_cons in Hd as [Hne Hd].
    cbn [collectTopLevel] in Hrun. unfold getDetachedNodeIds in Hrun.
    destruct (det !! d0) as [x|]; [|by injection Hrun as _ <- _].
    rewrite (IH _ _ _ _ _ _ _ Hrun d Hd). by apply registry_delete_ne.
  - rewrite childRefs_cons_inline in Hd. cbn [collectTopLevel] in Hrun.
    exact (IH _ _ _ _ _ _ _ Hrun d Hd).
Qed.

Lemma processTraits_frame ts : forall det c acc un o det' c',
  processTraits onInvalidDetachedId det ts c acc un = (o, det', c') ->
  forall d, d ∉ traitsRefs ts -> det' !! d = det !! d.
Proof.
  induction ts as [|[key children] rest IH]; intros det c acc un o det' c' Hrun d Hd.
  - by injection Hrun as _ <- _.
  - assert (Hr : traitsRefs ((key, children) :: rest)
                 = childRefs children ++ traitsRefs rest) by reflexivity.
    rewrite Hr in Hd. apply not_elem_of_app in Hd as [Hd1 Hd2].
    cbn [processTraits] in Hrun.
    destruct (processChildren _ det children c [] un) as [[o1 d1] c1] eqn:Hc.
    pose proof (processChildren_frame _ _ _ _ _ _ _ _ Hc d Hd1) as H1.
    destruct o1 as [[ids' un']|]; [|injection Hrun as _ <- _; done].
    rewrite (IH _ _ _ _ _ _ _ Hrun d Hd2). exact H1.
Qed.

Lemma processStack_frame fuel : forall det stack c o det' c',
  processStack onCreateNode onInvalidDetachedId fuel det stack c = (o, det', c') ->
  forall d, d ∉ eventRefs (concat (map nodeEvents stack)) -> det' !! d = det !! d.
Proof.
  induction fuel as [|fuel IH]; intros det stack c o det' c' Hrun d Hd;
    (destruct stack as [|[id d0 ts p] rest];
     [cbn in Hrun; by injection Hrun as _ <- _|]);
    cbn [processStack] in Hrun; [by injection Hrun as _ <- _|].
  rewrite stack_events_cons, eventRefs_app, eventRefs_resolves in Hd.
  apply not_elem_of_app in Hd as [Hd1 Hd2]. cbn in Hd2.
  cbn [nodeTraits] in Hrun.
  pose proof (processTraits_spec onInvalidDetachedId ts det c [] rest) as Ht.
  destruct (resolveRefs det (traitsRefs ts)) as [d1|] eqn:Hr1.
  - destruct Ht as [acc' Ht]. rewrite Ht in Hrun.
    apply resolveRefs_Some in Hr1 as (_ & _ & Hout).
    destruct (onCreateNode _ _ c) as [[] c2];
      [injection Hrun as _ <- _; by apply Hout|].
    rewrite (IH _ _ _ _ _ _ Hrun d Hd2). by apply Hout.
  - destruct Ht as [d2 Ht]. rewrite Ht in Hrun. injection Hrun as _ <- _.
    apply (processTraits_frame _ _ _ _ _ _ _ _ Ht d Hd1).
Qed.

Lemma createSnapshotNodesForTree_frame det sequence c o det' c' :
  createSnapshotNodesForTree onCreateNode onInvalidDetachedId det sequence c
  = (o, det', c') ->
  forall d, d ∉ sourceRefs sequence -> det' !! d = det !! d.
Proof.
  intros Hrun d Hd. rewrite <- (buildEvents_refs_perm sequence) in Hd.
  unfold buildEvents in Hd.
  rewrite eventRefs_app, eventRefs_resolves in Hd.
  apply not_elem_of_app in Hd as [Hd1 Hd2].
  unfold createSnapshotNodesForTree in Hrun.
  destruct (collectTopLevel _ det sequence c [] []) as [[o1 d1] c1] eqn:Hc.
  pose proof (collectTopLevel_frame _ _ _ _ _ _ _ _ Hc d Hd1) as H1.
  destruct o1 as [[ids un]|]; [|injection Hrun as _ <- _; done].
  pose proof (collectTopLevel_spec onInvalidDetachedId sequence det c [] []) as Hs.
  destruct (resolveRefs det (childRefs sequence)) as [d1'|].
  - destruct Hs as [ids' Hs]. rewrite Hs in Hc.
    injection Hc as <- <- <- <-. rewrite app_nil_r in Hrun.
    destruct (processStack _ _ _ _ _ _) as [[o2 d2] c2] eqn:Hp.
    rewrite <- H1. destruct o2; injection Hrun as _ <- _;
      exact (processStack_frame _ _ _ _ _ _ _ Hp d Hd2).
  - destruct Hs as [d2 Hs]. congruence.
Qed.
End TraversalFrame.

Section FailureFrame.
Context {EU : EditUtilities}.

(** C3 (amended): an apply that returns Invalid or Malformed leaves the
    view unchanged; it leaves the registry unchanged too, except a failing
    Build, whose traversal may already have removed detached sequences
    its source referenced: its registry afterwards is contained in the
    one before, and every entry its source does not reference is
    unchanged. *)
Theorem failed_apply_frame (t t' : Transaction) (change : Change)
    (r : EditResult.t) :
  dispatchChange t change = Done (r, t') ->
  r <> EditResult.Applied ->
  view t' = view t /\
  detached t' ⊆ detached t /\
  match change with
  | Build source _ =>
      forall d, d ∉ sourceRefs source -> detached t' !! d = detached t !! d
  | _ => detached t' = detached t
  end.
Proof.
  destruct change; simpl.
  - unfold applyBuild. case_bool_decide.
    { intros Heq _. injection Heq as <- <-. done. }
    destruct (createSnapshotNodesForTree _ _ _ _ _) as [[newIds det] l] eqn:Hc.
    pose proof (createSnapshotNodesForTree_frame _ _ _ _ _ _ _ _ Hc) as Hf.
    apply createSnapshotNodesForTree_subseteq in Hc.
    destruct (_ || _); [intros Heq _; injection Heq as <- <-; done|].
    destruct (idAlreadyPresent l); [intros Heq _; injection Heq as <- <-; done|].
    destruct newIds; [|discriminate]. intros Heq Hr. injection Heq as <- <-.
    done.
  - unfold applyInsert. repeat case_match; intros Heq Hr; try discriminate;
      injection Heq as <- <-; done.
  - unfold applyDetach. repeat case_match; intros Heq Hr; try discriminate;
      injection Heq as <- <-; done.
  - unfold applyConstraint. repeat case_match; intros Heq Hr; try discriminate;
      injection Heq as <- <-; done.
  - unfold applySetValue. repeat case_match; intros Heq Hr; try discriminate;
      injection Heq as <- <-; done.
Qed.

Lemma applyChanges_frozen (g : GenericTransaction) (changes : list Change) :
  outcome g <> EditResult.Applied -> applyChanges g changes = Done g.
Proof.
  intros Hg. induction changes as [|c rest IH]; simpl; [done|].
  unfold applyChange. by destruct (outcome g).
Qed.

Lemma applyChanges_all_applied t0 changes t g :
  allApplied t0 changes = Some t ->
  applyChanges {| transaction := t0; outcome := EditResult.Applied |} changes
  = Done g ->
  g = {| transaction := t; outcome := EditResult.Applied |}.
Proof.
  revert t0. induction changes as [|c rest IH]; intros t0; simpl.
  - intros [= ->] [= <-]. done.
  - unfold applyChange. simpl.
    destruct (dispatchChange t0 c) as [|[[] t1]]; try discriminate.
    apply IH.
Qed.

Lemma applyChanges_first_failure t0 pre c post tk r t' g :
  allApplied t0 pre = Some tk ->
  dispatchChange tk c = Done (r, t') -> r <> EditResult.Applied ->
  applyChanges {| transaction := t0; outcome := EditResult.Applied |}
    (pre ++ c :: post) = Done g ->
  g = {| transaction := t'; outcome := r |}.
Proof.
  revert t0. induction pre as [|c0 pre IH]; intros t0; simpl.
  - intros [= ->] Hc Hr. unfold applyChange. simpl. rewrite Hc.
    rewrite applyChanges_frozen by done. by intros [= <-].
  - unfold applyChange. simpl.
    destruct (dispatchChange t0 c0) as [|[[] t1]]; try discriminate.
    apply IH.
Qed.

Lemma applyChanges_some_failure t0 changes g :
  allApplied t0 changes = None ->
  applyChanges {| transaction := t0; outcome := EditResult.Applied |} changes
  = Done g ->
  exists pre c post tk r t', changes = pre ++ c :: post /\
    allApplied t0 pre = Some tk /\ dispatchChange tk c = Done (r, t') /\
    r <> EditResult.Applied.
Proof.
  revert t0. induction changes as [|c rest IH]; intros t0; simpl; [discriminate|].
  unfold applyChange. simpl.
  destruct (dispatchChange t0 c) as [m|[r t1]] eqn:Hc; [discriminate|].
  destruct r.
  - intros Hn Hrun. destruct (IH t1 Hn Hrun)
      as (pre & c' & post & tk & r & t' & -> & Hpre & Hc' & Hr).
    exists (c :: pre), c', post, tk, r, t'. simpl. rewrite Hc. done.
  - intros _ _. exists [], c, rest, t0, EditResult.Invalid, t1. done.
  - intros _ _. exists [], c, rest, t0, EditResult.Malformed, t1. done.
Qed.

(** C1 (amended): run the changes on a new transaction.  If every change
    returned Applied, the outcome stays Applied and close gives Malformed
    when the registry is non-empty and Applied when it is empty.  Otherwise
    some change is the first one not Applied; the outcome is frozen at its
    classification (with the state it left), whatever the later changes,
    and close returns that classification whatever the registry holds. *)
Theorem close_outcome (initial : Snapshot) (changes : list Change)
    (g : GenericTransaction) :
  applyChanges (newTransaction initial) changes = Done g ->
  (forall t, allApplied (factory initial) changes = Some t ->
     transaction g = t /\ outcome g = EditResult.Applied /\
     (detached t <> ∅ -> close g = EditResult.Malformed) /\
     (detached t = ∅ -> close g = EditResult.Applied)) /\
  (allApplied (factory initial) changes = None ->
     exists pre c post tk r t', changes = pre ++ c :: post /\
       allApplied (factory initial) pre = Some tk /\
       dispatchChange tk c = Done (r, t') /\ r <> EditResult.Applied) /\
  (forall pre c post tk r t', changes = pre ++ c :: post ->
     allApplied (factory initial) pre = Some tk ->
     dispatchChange tk c = Done (r, t') -> r <> EditResult.Applied ->
     g = {| transaction := t'; outcome := r |} /\ close g = r).
Proof.
  intros Hrun. split; [|split].
  - intros t Ht. rewrite (applyChanges_all_applied _ _ _ _ Ht Hrun).
    unfold close, validateOnClose. simpl. split; [done|]. split; [done|].
    split; intros Hd.
    + rewrite bool_decide_eq_true_2; [done|]. by apply map_size_non_empty_iff.
    + rewrite bool_decide_eq_false_2; [done|].
      rewrite Hd, map_size_empty. by intros [].
  - intros Hn. exact (applyChanges_some_failure _ _ _ Hn Hrun).
  - intros pre c post tk r t' -> Hpre Hc Hr.
    rewrite (applyChanges_first_failure _ _ _ _ _ _ _ _ Hpre Hc Hr Hrun).
    split; [done|]. unfold close. simpl. by destruct r.
Qed.
End FailureFrame.

Lemma close_outcome_witness :
  applyChanges (EU := exampleUtilities) (newTransaction exampleSnapshot)
    [Build [exampleLeaf 5] 7] = Done exampleBuilt /\
  allApplied (EU := exampleUtilities) (factory exampleSnapshot)
    [Build [exampleLeaf 5] 7] = Some (transaction exampleBuilt) /\
  close exampleBuilt = EditResult.Malformed.
Proof.
  assert (Hrun : applyChanges (EU := exampleUtilities)
                   (newTransaction exampleSnapshot) [Build [exampleLeaf 5] 7]
                 = Done exampleBuilt) by (vm_compute; reflexivity).
  assert (Hall : allApplied (EU := exampleUtilities) (factory exampleSnapshot)
                   [Build [exampleLeaf 5] 7] = Some (transaction exampleBuilt))
    by (vm_compute; reflexivity).
  split; [exact Hrun|]. split; [exact Hall|].
  refine (proj1 (proj2 (proj2 (proj1 (close_outcome (EU := exampleUtilities)
            exampleSnapshot [Build [exampleLeaf 5] 7] exampleBuilt Hrun)
            _ Hall))) _).
  vm_compute. discriminate.
Defined.

Lemma failed_apply_frame_witness :
  view exampleDetachedState = view exampleDetachedState /\
  ∅ ⊆ detached exampleDetachedState /\
  (forall d, d ∉ sourceRefs [DetachedRef 0; exampleLeaf 5; exampleLeaf 5] ->
     (∅ : Registry) !! d = detached exampleDetachedState !! d).
Proof.
  exact (failed_apply_frame (EU := exampleUtilities) exampleDetachedState
           {| view := view exampleDetachedState; detached := ∅ |}
           (Build [DetachedRef 0; exampleLeaf 5; exampleLeaf 5] 7)
           EditResult.Malformed ltac:(vm_compute; reflexivity)
           ltac:(discriminate)).
Defined.
